(** * DELA: the minogrpc session layer and the block synchronizer

    A shallow embedding of [mino/minogrpc/session] (the session, its two
    relays and the send path) and of
    [core/ordering/cosipbft/blocksync/default.go] (the synchronizer and its
    stream handler), with the properties of the specification stated over
    it.

    Conventions.
    - A Go [error] is its message; a nil-able error is an [option].
    - Go interfaces whose implementation lives in another package
      (routing table, packets, queue, connection manager, gRPC client) are
      type classes; the theorems hold for every instance.
    - Goroutines started by [sendPacket] are run one after the other in the
      order of the [routes] list, which stands for an arbitrary map
      iteration and scheduling order.
    - Values pushed on an error channel are logged in order; whether the
      pushes fit the channel is decided by replaying the log on a channel
      of the capacity the code allocates ([chan_run]). *)

From stdpp Require Import gmap strings list pretty.

(** ** Results, errors, outcomes *)

Definition error := string.
Definition bytes := list Byte.byte.

(** [(v, err)] return pairs of Go: either a value or an error. *)
Definition result (A : Type) := (A + error)%type.

(** What a call can do besides returning: panic, block for ever, or exhaust
    the recursion budget of the model. *)
Inductive outcome (A : Type) : Type :=
| Ret (a : A)
| Panic (msg : string)
| Blocked
| OutOfFuel.
Arguments Ret {A} a.
Arguments Panic {A} msg.
Arguments Blocked {A}.
Arguments OutOfFuel {A}.

#[global] Instance outcome_bind : MBind outcome := λ A B k m,
  match m with
  | Ret a => k a
  | Panic msg => Panic msg
  | Blocked => Blocked
  | OutOfFuel => OutOfFuel
  end.

#[global] Instance outcome_ret : MRet outcome := λ A a, Ret a.

Definition returns {A} (m : outcome A) : bool :=
  match m with Ret _ => true | _ => false end.

(** ** Addresses *)

(** Modelled from the spec: [wrapAddress] is declared in a file of the
    session package that is not part of the sources at hand.  An address may
    be wrapped to hide the original sender; [Unwrap] gives back the address
    that was wrapped. *)
Inductive Address : Type :=
| Addr (s : string)
| wrapAddress (a : Address).

Definition newWrapAddress (a : Address) : Address := wrapAddress a.

Definition Unwrap (a : Address) : Address :=
  match a with
  | wrapAddress inner => inner
  | Addr _ => a
  end.

Fixpoint addr_String (a : Address) : string :=
  match a with
  | Addr s => s
  | wrapAddress inner => addr_String inner
  end.

Fixpoint addr_depth (a : Address) : nat :=
  match a with
  | Addr _ => 0
  | wrapAddress inner => S (addr_depth inner)
  end.

Fixpoint addr_wrap_n (n : nat) (s : string) : Address :=
  match n with
  | 0 => Addr s
  | S k => wrapAddress (addr_wrap_n k s)
  end.

#[global] Instance Address_eq_dec : EqDecision Address.
Proof. solve_decision. Defined.

#[global] Program Instance Address_countable : Countable Address :=
  inj_countable' (λ a, (addr_depth a, addr_String a))
                 (λ p, addr_wrap_n p.1 p.2) _.
Next Obligation.
  intros a. induction a as [s | a IH]; simpl in *; [done | by rewrite IH].
Qed.

(** ** Channels *)

(** A buffered Go channel: capacity, buffered values (oldest first) and the
    closed flag. *)
Record chan (A : Type) : Type := mkChan {
  ch_cap : nat;
  ch_buf : list A;
  ch_closed : bool;
}.
Arguments mkChan {A} _ _ _.
Arguments ch_cap {A} _.
Arguments ch_buf {A} _.
Arguments ch_closed {A} _.

(** [make(chan A, cap)] *)
Definition make_chan {A} (cap : nat) : chan A := mkChan cap [] false.

(** [close(c)]: closing a closed channel panics. *)
Definition chan_close {A} (c : chan A) : outcome (chan A) :=
  if ch_closed c then Panic "close of closed channel"
  else Ret (mkChan (ch_cap c) (ch_buf c) true).

(** [c <- v] with nobody receiving: panics on a closed channel, blocks on a
    full buffer. *)
Definition chan_send {A} (c : chan A) (v : A) : outcome (chan A) :=
  if ch_closed c then Panic "send on closed channel"
  else if decide (length (ch_buf c) < ch_cap c)
       then Ret (mkChan (ch_cap c) (ch_buf c ++ [v]) false)
       else Blocked.

(** [v, ok := <-c]: the oldest buffered value; on an empty channel the zero
    value when it is closed, and blocking otherwise. *)
Definition chan_recv {A} (c : chan A) : outcome (option A * chan A) :=
  match ch_buf c with
  | v :: rest => Ret (Some v, mkChan (ch_cap c) rest (ch_closed c))
  | [] => if ch_closed c then Ret (None, c) else Blocked
  end.

(** What a goroutine does to a channel it produces on. *)
Inductive chan_ev (A : Type) : Type :=
| Push (v : A)
| CloseCh.
Arguments Push {A} v.
Arguments CloseCh {A}.

Definition pushes {A} (evs : list (chan_ev A)) : list A :=
  omap (λ e, match e with Push v => Some v | CloseCh => None end) evs.

Definition is_close {A} (e : chan_ev A) : bool :=
  match e with CloseCh => true | Push _ => false end.

Definition closes {A} (evs : list (chan_ev A)) : nat :=
  length (filter (λ e, is_close e = true) evs).

(** State of a producer/consumer pair: the channel, how many more values
    the consumer is willing to receive, and what it has received. *)
Record chan_run_state (A : Type) : Type := mkRun {
  run_chan : chan A;
  run_reads : nat;
  run_received : list A;
}.
Arguments mkRun {A} _ _ _.
Arguments run_chan {A} _.
Arguments run_reads {A} _.
Arguments run_received {A} _.

(** One producer event.  The consumer receives only when the producer would
    otherwise block, and at most [run_reads] times. *)
Definition chan_step {A} (st : chan_run_state A) (e : chan_ev A)
  : outcome (chan_run_state A) :=
  let c := run_chan st in
  match e with
  | CloseCh =>
      c' ← chan_close c; Ret (mkRun c' (run_reads st) (run_received st))
  | Push v =>
      match chan_send c v with
      | Blocked =>
          match run_reads st, ch_buf c with
          | 0, _ => Blocked
          | S r, [] => Ret (mkRun c r (run_received st ++ [v]))
          | S r, x :: rest =>
              Ret (mkRun (mkChan (ch_cap c) (rest ++ [v]) false) r
                         (run_received st ++ [x]))
          end
      | Ret c' => Ret (mkRun c' (run_reads st) (run_received st))
      | Panic msg => Panic msg
      | OutOfFuel => OutOfFuel
      end
  end.

Fixpoint chan_run {A} (st : chan_run_state A) (evs : list (chan_ev A))
  : outcome (chan_run_state A) :=
  match evs with
  | [] => Ret st
  | e :: rest => st' ← chan_step st e; chan_run st' rest
  end.

(** Everything the consumer can get from the channel, in order: what it has
    received plus what is still buffered. *)
Definition run_delivered {A} (st : chan_run_state A) : list A :=
  run_received st ++ ch_buf (run_chan st).

(** [for v := range c] on a channel nobody sends on any more. *)
Definition chan_range {A} (c : chan A) : outcome (list A) :=
  if ch_closed c then Ret (ch_buf c) else Blocked.

(** ** The session package *)

Module Session.

(** A gRPC packet stream.  [is_client] tells whether the dynamic type of the
    stream is [ptypes.Overlay_StreamClient], the only kind that can be
    half-closed by [CloseSend]. *)
Record PacketStream : Type := mkStream {
  stream_id : nat;
  is_client : bool;
}.

(** A [grpc.ClientConnInterface] handle. *)
Definition Conn := nat.

(** [ptypes.Ack] *)
Record Ack : Type := mkAck { Errors : list string }.

(** What crosses the process boundary, in order. *)
Inductive wire_ev : Type :=
| EvAcquire (addr : Address)
| EvRelease (addr : Address)
| EvStream (conn : Conn) (handshake : bytes)
| EvHeader (stream : PacketStream)
| EvForward (conn : Conn) (data : bytes)
| EvStreamSend (stream : PacketStream) (data : bytes)
| EvCloseSend (stream : PacketStream).

(** The connection manager and the gRPC client, as seen by the session.
    [N] is the state of everything outside the session. *)
Class Transport (N : Type) : Type := {
  Acquire : N → Address → N * result Conn;
  Release : N → Address → N;
  clientStream : N → Conn → bytes → N * result PacketStream;
  streamHeader : N → PacketStream → N * option error;
  clientForward : N → Conn → bytes → N * result Ack;
  streamSend : N → PacketStream → bytes → N * option error;
  CloseSend : N → PacketStream → N * option error;
  statusCode : error → string;
}.

(** [router.Packet], [router.PacketFactory] and [router.RoutingTable].
    [Slice] returns the slice for the address ([None] is Go's nil) and the
    receiver as [Slice] leaves it.  A nil next hop in [routes] is [None]. *)
Class Router (Packet T : Type) : Type := {
  GetSource : Packet → Address;
  GetDestination : Packet → list Address;
  GetMessage : Packet → bytes;
  Slice : Packet → Address → option Packet * Packet;
  SerializePacket : Packet → result bytes;
  PacketOf : bytes → result Packet;
  Make : T → Address → list Address → bytes → Packet;
  Forward : T → Packet → T * list (option Address * Packet) * list (Address * error);
  OnFailure : T → Address → T * option error;
  PrepareHandshakeFor : T → Address → result bytes;
}.

(** The receive queue of the session. *)
Class Queue (Q Packet : Type) : Type := {
  newNonBlockingQueue : Q;
  QPush : Q → Packet → Q * option error;
  QPop : Q → option (Packet * Q);
}.

(** [serde.Message] and [serde.Factory]. *)
Class Serde (Msg : Type) : Type := {
  Serialize : Msg → result bytes;
  Deserialize : bytes → result Msg;
}.

(** The outside world and the log of what was asked of it. *)
Record world (N : Type) : Type := mkWorld {
  net : N;
  wire : list wire_ev;
}.
Arguments mkWorld {N} _ _.
Arguments net {N} _.
Arguments wire {N} _.

(** *** Relays *)

Inductive Relay : Type :=
| unicastRelay (gw : Address) (stream : PacketStream) (conn : Conn)
| streamRelay (gw : Address) (stream : PacketStream).

Definition NewRelay (stream : PacketStream) (gw : Address) (conn : Conn) : Relay :=
  unicastRelay gw stream conn.

Definition NewStreamRelay (gw : Address) (stream : PacketStream) : Relay :=
  streamRelay gw stream.

Definition GetDistantAddress (r : Relay) : Address :=
  match r with
  | unicastRelay gw _ _ => gw
  | streamRelay gw _ => gw
  end.

Definition Stream (r : Relay) : PacketStream :=
  match r with
  | unicastRelay _ stream _ => stream
  | streamRelay _ stream => stream
  end.

Section Relays.
Context {N Packet T : Type} `{!Transport N, !Router Packet T}.

Definition call_CloseSend (w : world N) (stream : PacketStream)
    : world N * option error :=
    let '(n, err) := CloseSend (net w) stream in
    (mkWorld n (wire w ++ [EvCloseSend stream]), err).

Definition call_Forward (w : world N) (conn : Conn) (data : bytes)
    : world N * result Ack :=
    let '(n, r) := clientForward (net w) conn data in
    (mkWorld n (wire w ++ [EvForward conn data]), r).

Definition call_streamSend (w : world N) (stream : PacketStream) (data : bytes)
    : world N * option error :=
    let '(n, err) := streamSend (net w) stream data in
    (mkWorld n (wire w ++ [EvStreamSend stream data]), err).

  (** [unicastRelay.Send] *)
Definition unicastRelay_Send (conn : Conn) (w : world N) (p : Packet)
    : world N * result Ack :=
    match SerializePacket p with
    | inr err => (w, inr ("failed to serialize: " +:+ err))
    | inl data =>
        let '(w', r) := call_Forward w conn data in
        match r with
        | inr err => (w', inr ("client: " +:+ err))
        | inl ack => (w', inl ack)
        end
    end.

  (** [unicastRelay.Close] *)
Definition unicastRelay_Close (stream : PacketStream) (w : world N)
    : world N * option error :=
    if is_client stream then
      let '(w', err) := call_CloseSend w stream in
      match err with
      | Some e => (w', Some ("failed to close stream: " +:+ e))
      | None => (w', None)
      end
    else (w, None).

  (** [streamRelay.Send] *)
Definition streamRelay_Send (stream : PacketStream) (w : world N) (p : Packet)
    : world N * result Ack :=
    match SerializePacket p with
    | inr err => (w, inr ("failed to serialize: " +:+ err))
    | inl data =>
        let '(w', err) := call_streamSend w stream data in
        match err with
        | Some e => (w', inr ("stream: " +:+ e))
        | None => (w', inl (mkAck []))
        end
    end.

  (** [streamRelay.Close] *)
Definition streamRelay_Close (stream : PacketStream) (w : world N)
    : world N * option error :=
    (w, None).

  (** Dispatch on the dynamic type of the relay. *)
Definition Relay_Send (r : Relay) (w : world N) (p : Packet)
    : world N * result Ack :=
    match r with
    | unicastRelay _ _ conn => unicastRelay_Send conn w p
    | streamRelay _ stream => streamRelay_Send stream w p
    end.

Definition Relay_Close (r : Relay) (w : world N) : world N * option error :=
    match r with
    | unicastRelay _ stream _ => unicastRelay_Close stream w
    | streamRelay _ stream => streamRelay_Close stream w
    end.
End Relays.

(** *** The session *)

Record parent (T : Type) : Type := mkParent {
  relay : Relay;
  table : T;
}.
Arguments mkParent {T} _ _.
Arguments relay {T} _.
Arguments table {T} _.

(** The fields of [session] that the code reads or writes.  [parents] is
    kept as the list of its entries in iteration order; [wg] is the counter
    of the embedded [sync.WaitGroup].  Every parent owns its table. *)
Record session (Q T : Type) : Type := mkSession {
  me : Address;
  errs : chan error;
  queue : Q;
  relays : gmap Address Relay;
  parents : list (Address * parent T);
  wg : nat;
}.
Arguments mkSession {Q T} _ _ _ _ _ _.
Arguments me {Q T} _.
Arguments errs {Q T} _.
Arguments queue {Q T} _.
Arguments relays {Q T} _.
Arguments parents {Q T} _.
Arguments wg {Q T} _.

Section SessionOps.
Context {N Packet T Q Msg : Type}.
Context `{!Transport N, !Router Packet T, !Queue Q Packet, !Serde Msg}.

Abbreviation session := (session Q T).

Definition set_errs (s : session) (c : chan error) : session :=
    mkSession (me s) c (queue s) (relays s) (parents s) (wg s).
Definition set_queue (s : session) (q : Q) : session :=
    mkSession (me s) (errs s) q (relays s) (parents s) (wg s).
Definition set_relays (s : session) (r : gmap Address Relay) : session :=
    mkSession (me s) (errs s) (queue s) r (parents s) (wg s).
Definition set_parents (s : session) (ps : list (Address * parent T)) : session :=
    mkSession (me s) (errs s) (queue s) (relays s) ps (wg s).
Definition set_wg (s : session) (n : nat) : session :=
    mkSession (me s) (errs s) (queue s) (relays s) (parents s) n.

  (** [NewSession] *)
Definition NewSession (me : Address) : session :=
    mkSession me (make_chan 1) newNonBlockingQueue ∅ [] 0.

  (** [GetNumParents] *)
Definition GetNumParents (s : session) : nat := length (parents s).

  (** [s.parents[addr] = p] and [delete(s.parents, addr)] *)
Fixpoint parents_insert (addr : Address) (p : parent T)
      (ps : list (Address * parent T)) : list (Address * parent T) :=
    match ps with
    | [] => [(addr, p)]
    | (a, q) :: rest =>
        if decide (a = addr) then (addr, p) :: rest
        else (a, q) :: parents_insert addr p rest
    end.

Definition parents_delete (addr : Address) (ps : list (Address * parent T))
    : list (Address * parent T) :=
    filter (λ e, e.1 ≠ addr) ps.

  (** [SetPassive] *)
Definition SetPassive (p : Relay) (table : T) (s : session) : session :=
    set_parents s (parents_insert (GetDistantAddress p) (mkParent p table) (parents s)).

  (** [Close]: closes [errs], then waits for the wait group.  With no other
      goroutine running, [Wait] returns only on a zero counter. *)
Definition Close (s : session) : outcome session :=
    c ← chan_close (errs s);
    let s' := set_errs s c in
    if decide (wg s' = 0) then Ret s' else Blocked.
  (** The two calls of [Close] as separate steps, for interleavings of
      several callers. *)
Inductive close_pc : Type := CloseEntry | CloseWait | CloseDone.

Definition Close_step (s : session) (pc : close_pc)
    : outcome (session * close_pc) :=
    match pc with
    | CloseEntry => c ← chan_close (errs s); Ret (set_errs s c, CloseWait)
    | CloseWait =>
        if decide (wg s = 0) then Ret (s, CloseDone) else Ret (s, CloseWait)
    | CloseDone => Ret (s, CloseDone)
    end.

  (** Two callers of [Close] on the same session; the schedule says who
      moves next ([true]: the first caller).  A panic stops the program. *)
Fixpoint Close_par (sched : list bool) (s : session) (pc1 pc2 : close_pc)
    : outcome (session * close_pc * close_pc) :=
    match sched with
    | [] => Ret (s, pc1, pc2)
    | true :: rest =>
        '(s', pc1') ← Close_step s pc1; Close_par rest s' pc1' pc2
    | false :: rest =>
        '(s', pc2') ← Close_step s pc2; Close_par rest s' pc1 pc2'
    end.

  (** Interleavings of two callers keep their program counters and the
      channel in step: the channel is closed exactly when one caller is
      past its [close(s.errs)], and never are both. *)
Definition close_inv (s : session) (pc1 pc2 : close_pc) : Prop :=
    (pc1 = CloseEntry ∧ pc2 = CloseEntry ∧ ch_closed (errs s) = false)
    ∨ (pc1 ≠ CloseEntry ∧ pc2 = CloseEntry ∧ ch_closed (errs s) = true)
    ∨ (pc1 = CloseEntry ∧ pc2 ≠ CloseEntry ∧ ch_closed (errs s) = true).

  (** *** The send path *)

  (** What [sendPacket] and its callees read and write: the session, the
      table of the parent in use, the outside world, and the values pushed
      on the [errs] argument so far. *)
Record sendst : Type := mkSt {
    st_sess : session;
    st_table : T;
    st_world : world N;
    st_errs : list error;
  }.

Definition st_push (st : sendst) (e : error) : sendst :=
    mkSt (st_sess st) (st_table st) (st_world st) (st_errs st ++ [e]).
Definition st_push_all (st : sendst) (es : list error) : sendst :=
    mkSt (st_sess st) (st_table st) (st_world st) (st_errs st ++ es).
Definition st_set_sess (st : sendst) (s : session) : sendst :=
    mkSt s (st_table st) (st_world st) (st_errs st).
Definition st_set_table (st : sendst) (t : T) : sendst :=
    mkSt (st_sess st) t (st_world st) (st_errs st).
Definition st_set_world (st : sendst) (w : world N) : sendst :=
    mkSt (st_sess st) (st_table st) w (st_errs st).

Definition call_Acquire (w : world N) (addr : Address) : world N * result Conn :=
    let '(n, r) := Acquire (net w) addr in
    (mkWorld n (wire w ++ [EvAcquire addr]), r).

Definition call_Release (w : world N) (addr : Address) : world N :=
    mkWorld (Release (net w) addr) (wire w ++ [EvRelease addr]).

Definition call_Stream (w : world N) (conn : Conn) (hs : bytes)
    : world N * result PacketStream :=
    let '(n, r) := clientStream (net w) conn hs in
    (mkWorld n (wire w ++ [EvStream conn hs]), r).

Definition call_Header (w : world N) (stream : PacketStream)
    : world N * option error :=
    let '(n, r) := streamHeader (net w) stream in
    (mkWorld n (wire w ++ [EvHeader stream]), r).

  (** [setupRelay], up to the start of the goroutine that drains the new
      stream. *)
Definition setupRelay (addr : Address) (st : sendst) : sendst * result Relay :=
    let s := st_sess st in
    match relays s !! addr with
    | Some r => (st, inl r)
    | None =>
        match PrepareHandshakeFor (st_table st) addr with
        | inr err => (st, inr ("failed to serialize handshake: " +:+ err))
        | inl hs =>
            let '(w1, c) := call_Acquire (st_world st) addr in
            match c with
            | inr err => (st_set_world st w1, inr ("failed to dial: " +:+ err))
            | inl conn =>
                let '(w2, r) := call_Stream w1 conn hs in
                match r with
                | inr err =>
                    (st_set_world st (call_Release w2 addr), inr ("client: " +:+ err))
                | inl stream =>
                    let '(w3, h) := call_Header w2 stream in
                    match h with
                    | Some err =>
                        (st_set_world st (call_Release w3 addr),
                         inr ("failed to receive header: " +:+ err))
                    | None =>
                        let newRelay := NewRelay stream addr conn in
                        let s' := set_wg (set_relays s (<[addr := newRelay]> (relays s)))
                                         (S (wg s)) in
                        (st_set_world (st_set_sess st s') w3, inl newRelay)
                    end
                end
            end
        end
    end.

  (** The deferred part of the goroutine started by [setupRelay], run when
      the stream of the relay ends. *)
Definition relay_exit (addr : Address) (newRelay : Relay)
      (s : session) (w : world N) : session * world N :=
    let s1 := set_relays s (delete addr (relays s)) in
    let '(w1, _) := Relay_Close newRelay w in
    let w2 := call_Release w1 addr in
    (set_wg s1 (pred (wg s1)), w2).

Section Recursion.
    (** The recursive call of [sendPacket] made by [onFailure]. *)
Variable retry : Relay → Packet → sendst → outcome (sendst * Packet * bool).

    (** [onFailure] *)
Definition onFailure_ (prelay : Relay) (gateway : Address) (pkt : Packet)
        (st : sendst) : outcome sendst :=
      let '(t', err) := OnFailure (st_table st) gateway in
      let st := st_set_table st t' in
      match err with
      | Some e =>
          Ret (st_push st ("no route to " +:+ addr_String gateway +:+ ": " +:+ e))
      | None =>
          '(st', _, _) ← retry prelay pkt st; Ret st'
      end.

    (** [sendTo] *)
Definition sendTo_ (prelay : Relay) (to : option Address) (pkt : Packet)
        (st : sendst) : outcome sendst :=
      match to with
      | None =>
          let '(w, r) := Relay_Send prelay (st_world st) pkt in
          let st := st_set_world st w in
          match r with
          | inr err =>
              Ret (st_push st ("session " +:+ addr_String (me (st_sess st))
                               +:+ " is closing: " +:+ statusCode err))
          | inl ack => Ret (st_push_all st (Errors ack))
          end
      | Some to =>
          let '(st, r) := setupRelay to st in
          match r with
          | inr _ => onFailure_ prelay to pkt st
          | inl rl =>
              let '(w, r) := Relay_Send rl (st_world st) pkt in
              let st := st_set_world st w in
              match r with
              | inr _ => onFailure_ prelay (GetDistantAddress rl) pkt st
              | inl ack => Ret (st_push_all st (Errors ack))
              end
          end
      end.

    (** The [sendTo] goroutines of one [sendPacket], one after the other. *)
Fixpoint sendTo_all (prelay : Relay) (routes : list (option Address * Packet))
        (st : sendst) : outcome sendst :=
      match routes with
      | [] => Ret st
      | (addr, packet) :: rest =>
          st' ← sendTo_ prelay addr packet st; sendTo_all prelay rest st'
      end.

    (** [sendPacket].  The result carries the packet as [Slice] left it. *)
Definition sendPacket_ (prelay : Relay) (pkt : Packet) (st : sendst)
      : outcome (sendst * Packet * bool) :=
      let s := st_sess st in
      let '(me_slice, pkt) := Slice pkt (me s) in
      let st :=
        match me_slice with
        | Some m =>
            let '(q, err) := QPush (queue s) m in
            let st := st_set_sess st (set_queue s q) in
            match err with
            | Some e =>
                st_push st (addr_String (me s) +:+ " dropped the packet: " +:+ e)
            | None => st
            end
        | None => st
        end in
      let '(t', routes, voids) := Forward (st_table st) pkt in
      let st := st_set_table st t' in
      let st :=
        foldl (λ st v, st_push st ("no route to " +:+ addr_String v.1 +:+ ": " +:+ v.2))
              st voids in
      match routes, voids with
      | [], [] => Ret (st, pkt, bool_decide (is_Some me_slice))
      | _, _ =>
          st' ← sendTo_all prelay routes st; Ret (st', pkt, true)
      end.
End Recursion.

  (** [sendPacket], with a bound on the depth of the retries of
      [onFailure]. *)
Fixpoint sendPacket (fuel : nat) (prelay : Relay) (pkt : Packet) (st : sendst)
    : outcome (sendst * Packet * bool) :=
    sendPacket_
      (match fuel with
       | 0 => λ _ _ _, OutOfFuel
       | S fuel' => sendPacket fuel'
       end) prelay pkt st.

Definition onFailure (fuel : nat) := onFailure_ (sendPacket fuel).
Definition sendTo (fuel : nat) := sendTo_ (sendPacket fuel).

  (** *** Send *)

  (** The loop at the head of [Send]: for each index of the slice, an
      element whose dynamic type is [wrapAddress] is overwritten with what
      it wraps. *)
Fixpoint unwrap_from (n i : nat) (addrs : list Address) : list Address :=
    match n with
    | 0 => addrs
    | S n' =>
        let addrs' :=
          match addrs !! i with
          | Some (wrapAddress inner) => <[i := Unwrap (wrapAddress inner)]> addrs
          | _ => addrs
          end in
        unwrap_from n' (S i) addrs'
    end.

Definition unwrap_addrs (addrs : list Address) : list Address :=
    unwrap_from (length addrs) 0 addrs.

  (** State of the loops over the parents: the parents already visited with
      their tables as the calls left them, the session, the world, and the
      values pushed on the channel. *)
Record loopst : Type := mkLoop {
    lp_parents : list (Address * parent T);
    lp_sess : session;
    lp_world : world N;
    lp_errs : list error;
  }.

Definition lp_cons (a : Address) (p : parent T) (l : loopst) : loopst :=
    mkLoop ((a, p) :: lp_parents l) (lp_sess l) (lp_world l) (lp_errs l).

  (** The loop over the parents in the goroutine of [Send]; the boolean
      tells whether a parent accepted the packet. *)
Fixpoint Send_parents (fuel : nat) (data : bytes) (addrs : list Address)
      (ps : list (Address * parent T)) (s : session) (w : world N)
      (log : list error) : outcome (loopst * bool) :=
    match ps with
    | [] => Ret (mkLoop [] s w log, false)
    | (a, p) :: rest =>
        let packet := Make (table p) (me s) addrs data in
        '(st, _, sent) ← sendPacket fuel (relay p) packet (mkSt s (table p) w log);
        let p' := mkParent (relay p) (st_table st) in
        if sent : bool
        then Ret (mkLoop ((a, p') :: rest) (st_sess st) (st_world st) (st_errs st), true)
        else
          '(l, sent') ←
            Send_parents fuel data addrs rest (st_sess st) (st_world st) (st_errs st);
          Ret (lp_cons a p' l, sent')
    end.

  (** What the goroutine started by [Send] leaves behind: the session, the
      world, and what it did to the channel it was given. *)
Record sent : Type := mkSent {
    snt_sess : session;
    snt_world : world N;
    snt_events : list (chan_ev error);
  }.

  (** The goroutine of [Send], its deferred [close(errs)] included. *)
Definition Send_routine (fuel : nat) (msg : Msg) (addrs : list Address)
      (s : session) (w : world N) : outcome sent :=
    '(s', w', log) ←
      match Serialize msg with
      | inr err => Ret (s, w, ["failed to serialize msg: " +:+ err])
      | inl data =>
          '(l, accepted) ← Send_parents fuel data addrs (parents s) s w [];
          let s' := set_parents (lp_sess l) (lp_parents l) in
          if accepted : bool then Ret (s', lp_world l, lp_errs l)
          else Ret (s', lp_world l, lp_errs l ++ ["packet ignored"])
      end;
    Ret (mkSent s' w' (map Push log ++ [CloseCh])).

  (** Backing arrays of the [[]mino.Address] slices of the callers. *)
Abbreviation heap := (gmap nat (list Address)).

  (** [Send(msg, addrs...)] where [addrs] is the slice at location [l] of
      the heap (a nil slice when there is none).  The result is the heap
      after the call, the channel handed to the caller, and the run of the
      goroutine. *)
Definition Send (fuel : nat) (msg : Msg) (l : nat) (h : heap)
      (s : session) (w : world N) : heap * chan error * outcome sent :=
    let addrs := default [] (h !! l) in
    let errs := make_chan (length addrs + 1) in
    let addrs' := unwrap_addrs addrs in
    let h' := match h !! l with Some _ => <[l := addrs']> h | None => h end in
    (h', errs, Send_routine fuel msg addrs' s w).

  (** What the caller of [Send] observes on the returned channel when it
      receives at most [reads] values before giving up. *)
Definition Send_observe (reads : nat) (r : heap * chan error * outcome sent)
    : outcome (chan_run_state error) :=
    snt ← r.2; chan_run (mkRun r.1.2 reads []) (snt_events snt).

  (** The consumer of a channel gets the single value [e] and then the
      closed channel. *)
Definition yields_one (e : error) (r : outcome (chan_run_state error)) : Prop :=
    ∃ run, r = Ret run ∧ ch_closed (run_chan run) = true ∧ run_delivered run = [e].

  (** *** RecvPacket *)

  (** The loop over the parents in [RecvPacket].  Each turn allocates a
      channel sized by the destinations of the packet; nobody receives from
      it while [sendPacket] runs. *)
Fixpoint RecvPacket_parents (fuel : nat) (ps : list (Address * parent T))
      (pkt : Packet) (s : session) (w : world N)
    : outcome (loopst * option Ack) :=
    match ps with
    | [] => Ret (mkLoop [] s w [], None)
    | (a, p) :: rest =>
        let errs := make_chan (length (GetDestination pkt)) in
        '(st, pkt', accepted) ← sendPacket fuel (relay p) pkt (mkSt s (table p) w []);
        run ← chan_run (mkRun errs 0 []) (map Push (st_errs st) ++ [CloseCh]);
        let p' := mkParent (relay p) (st_table st) in
        if accepted : bool then
          es ← chan_range (run_chan run);
          Ret (mkLoop ((a, p') :: rest) (st_sess st) (st_world st) es,
               Some (mkAck es))
        else
          '(l, ack) ← RecvPacket_parents fuel rest pkt' (st_sess st) (st_world st);
          Ret (lp_cons a p' l, ack)
    end.

  (** [RecvPacket]; [p] is the serialized packet of the wire message. *)
Definition RecvPacket (fuel : nat) (from : Address) (p : bytes)
      (s : session) (w : world N) : outcome (session * world N * result Ack) :=
    match PacketOf p with
    | inr err => Ret (s, w, inr ("packet malformed: " +:+ err))
    | inl pkt =>
        '(l, ack) ← RecvPacket_parents fuel (parents s) pkt s w;
        let s' := set_parents (lp_sess l) (lp_parents l) in
        match ack with
        | Some a => Ret (s', lp_world l, inl a)
        | None =>
            Ret (s', lp_world l,
                 inr ("packet is dropped (tried " +:+ pretty (length (parents s))
                      +:+ " parent-s)"))
        end
    end.

  (** *** Recv *)

  (** The case of the [select] of [Recv] that fires. *)
Inductive recv_case : Type := CaseCtx | CaseErrs | CaseQueue.

  (** [Recv]; [ctx_err] is [ctx.Err()] once the context is done. *)
Definition Recv (ctx_err : option error) (choice : recv_case) (s : session)
    : outcome (session * result (Address * Msg)) :=
    match choice with
    | CaseCtx =>
        match ctx_err with
        | Some e => Ret (s, inr e)
        | None => Blocked
        end
    | CaseErrs =>
        '(v, c) ← chan_recv (errs s);
        match v with
        | Some err => Ret (set_errs s c, inr ("stream closed unexpectedly: " +:+ err))
        | None => Ret (set_errs s c, inr "EOF")
        end
    | CaseQueue =>
        match QPop (queue s) with
        | None => Blocked
        | Some (packet, q) =>
            match Deserialize (GetMessage packet) with
            | inr err => Ret (set_queue s q, inr ("message: " +:+ err))
            | inl msg =>
                Ret (set_queue s q, inl (newWrapAddress (GetSource packet), msg))
            end
        end
    end.

(** *** Listen and the goroutine of a relay *)

(** What [stream.Recv] gives: a packet with a nil error, [io.EOF], or
    another error. *)
Inductive stream_result : Type :=
| StreamPacket
| StreamEOF
| StreamErr (e : error).

Definition is_EOF (r : stream_result) : bool :=
  match r with StreamEOF => true | _ => false end.

(** The error of the result, nil for a packet. *)
Definition stream_err (r : stream_result) : option error :=
  match r with
  | StreamPacket => None
  | StreamEOF => Some "EOF"
  | StreamErr e => Some e
  end.

(** [status.Code(err)], by its name: [OK] for a nil error and [Unknown]
    for an error that carries no status, as gRPC defines it. *)
Definition stream_code (r : stream_result) : string :=
  match r with
  | StreamPacket => "OK"
  | StreamEOF => "Unknown"
  | StreamErr e => statusCode e
  end.

(** [err == io.EOF || code != codes.Unknown] *)
Definition stream_over (r : stream_result) : bool :=
  is_EOF r || negb (bool_decide (stream_code r = "Unknown")).

(** The stream ended in a way the code does not expect: an error other
    than [io.EOF] whose status code is [Unknown]. *)
Definition unexpected (r : stream_result) : option error :=
  match r with
  | StreamErr e => if decide (statusCode e = "Unknown") then Some e else None
  | _ => None
  end.

(** The loop of [Listen] on the stream of the parent; [rs] is what the
    calls of [stream.Recv] give, in order. *)
Fixpoint Listen_loop (rs : list stream_result) (s : session) : outcome session :=
  match rs with
  | [] => Blocked
  | r :: rest =>
      if stream_over r then Ret s
      else
        match stream_err r with
        | Some err =>
            c ← chan_send (errs s) ("stream closed unexpectedly: " +:+ err);
            Ret (set_errs s c)
        | None => Listen_loop rest s
        end
  end.

(** [Listen]: registers the parent, closes [ready], drains the stream, and
    on return removes the parent (the deferred function). *)
Definition Listen (relay : Relay) (table : T) (ready : chan ())
    (rs : list stream_result) (s : session) : outcome (session * chan ()) :=
  let s := SetPassive relay table s in
  ready ← chan_close ready;
  s ← Listen_loop rs s;
  Ret (set_parents s (parents_delete (GetDistantAddress relay) (parents s)), ready).

(** The loop of the goroutine that [setupRelay] starts for the relay to
    [addr]: an unexpected end of the stream is announced to the table. *)
Fixpoint drain_loop (addr : Address) (rs : list stream_result) (t : T) : outcome T :=
  match rs with
  | [] => Blocked
  | r :: rest =>
      if stream_over r then Ret t
      else
        match stream_err r with
        | Some _ => Ret (OnFailure t addr).1
        | None => drain_loop addr rest t
        end
  end.

(** The goroutine that [setupRelay] starts, its deferred function
    included.  [s.Done()] panics on a counter that is already zero. *)
Definition relay_drain (addr : Address) (newRelay : Relay)
    (rs : list stream_result) (st : sendst) : outcome sendst :=
  t ← drain_loop addr rs (st_table st);
  if decide (wg (st_sess st) = 0) then Panic "sync: negative WaitGroup counter"
  else
    let '(s, w) := relay_exit addr newRelay (st_sess st) (st_world st) in
    Ret (mkSt s t w (st_errs st)).

  (** *** Contracts used by the properties *)

  (** The contract of a routing table that makes the retries of
      [onFailure] finite: [mu] bounds the failures the table can still
      repair.  A repair uses one up; nothing else adds any. *)
Record converges (mu : T → nat) : Prop := {
    conv_repair : ∀ t a t', OnFailure t a = (t', None) → mu t' < mu t;
    conv_fail : ∀ t a t' e, OnFailure t a = (t', Some e) → mu t' ≤ mu t;
    conv_forward : ∀ t p t' r v, Forward t p = (t', r, v) → mu t' ≤ mu t;
  }.

  (** [st'] comes after [st] in a send: the table has not gained repairs
      and the errors pushed so far are still there. *)
Definition extends (mu : T → nat) (st st' : sendst) : Prop :=
    mu (st_table st') ≤ mu (st_table st) ∧ ∃ es, st_errs st' = st_errs st ++ es.

  (** The recursive call [retry] returns on every table that has fewer than
      [bound] repairs left. *)
Definition retry_ok (mu : T → nat)
      (retry : Relay → Packet → sendst → outcome (sendst * Packet * bool))
      (bound : nat) : Prop :=
    ∀ prelay pkt st, mu (st_table st) < bound →
      ∃ st' pkt' b, retry prelay pkt st = Ret (st', pkt', b) ∧ extends mu st st'.

  (** The part of [sendPacket] that comes before the table is asked: the
      delivery of the local slice. *)
Definition local_part (pkt : Packet) (st : sendst) : sendst :=
    match (Slice pkt (me (st_sess st))).1 with
    | Some m =>
        let '(q, err) := QPush (queue (st_sess st)) m in
        let st' := st_set_sess st (set_queue (st_sess st) q) in
        match err with
        | Some e =>
            st_push st' (addr_String (me (st_sess st)) +:+ " dropped the packet: " +:+ e)
        | None => st'
        end
    | None => st
    end.

(** The recursive call [retry] keeps the property [P] of sessions. *)
Definition retry_keeps (P : session → Prop)
    (retry : Relay → Packet → sendst → outcome (sendst * Packet * bool)) : Prop :=
  ∀ prelay pkt st r, P (st_sess st) → retry prelay pkt st = Ret r → P (st_sess r.1.1).

(** Every relay of the session is a unicast relay, registered under the
    address of its peer. *)
Definition relays_unicast (s : session) : Prop :=
  ∀ a rl, relays s !! a = Some rl → ∃ stream conn, rl = unicastRelay a stream conn.

(** The error that the delivery of the local slice puts on the channel. *)
Definition local_errs (pkt : Packet) (st : sendst) : list error :=
  match (Slice pkt (me (st_sess st))).1 with
  | Some m =>
      match (QPush (queue (st_sess st)) m).2 with
      | Some e => [addr_String (me (st_sess st)) +:+ " dropped the packet: " +:+ e]
      | None => []
      end
  | None => []
  end.

(** The errors for the destinations that the table voids. *)
Definition void_errs (voids : list (Address * error)) : list error :=
  map (λ v, "no route to " +:+ addr_String v.1 +:+ ": " +:+ v.2) voids.

(** What the legs of a send put on the channel, leg by leg.

    [leg_reports prelay to pkt st es st']: the leg of the route [(to, pkt)],
    started in [st], ends in [st'] having pushed exactly [es].  A leg ends in
    one of four ways: its relay took the packet and the errors of the
    acknowledgement were pushed; the relay of the parent failed and one
    error says that the session is closing; the relay of a child could not
    be set up or failed, and either the table had no repair and one error
    names the gateway, or the packet was sent again and the leg reports
    what that send reports.

    [packet_reports prelay pkt st es st' pkt' b] is the same for a call of
    [sendPacket]: the error of the local delivery, one error for each
    voided destination, then the reports of the legs in the order of the
    routes. *)
Inductive leg_reports
    : Relay → option Address → Packet → sendst → list error → sendst → Prop :=
  | leg_parent_delivered prelay pkt st w ack :
      Relay_Send prelay (st_world st) pkt = (w, inl ack) →
      leg_reports prelay None pkt st (Errors ack)
        (st_push_all (st_set_world st w) (Errors ack))
  | leg_parent_closing prelay pkt st w err :
      Relay_Send prelay (st_world st) pkt = (w, inr err) →
      leg_reports prelay None pkt st
        ["session " +:+ addr_String (me (st_sess st)) +:+ " is closing: "
         +:+ statusCode err]
        (st_push (st_set_world st w)
           ("session " +:+ addr_String (me (st_sess st)) +:+ " is closing: "
            +:+ statusCode err))
  | leg_child_delivered prelay to pkt st st1 rl w ack :
      setupRelay to st = (st1, inl rl) →
      Relay_Send rl (st_world st1) pkt = (w, inl ack) →
      leg_reports prelay (Some to) pkt st (Errors ack)
        (st_push_all (st_set_world st1 w) (Errors ack))
  | leg_setup_failed prelay to pkt st st1 err es st' :
      setupRelay to st = (st1, inr err) →
      repair_reports prelay to pkt st1 es st' →
      leg_reports prelay (Some to) pkt st es st'
  | leg_send_failed prelay to pkt st st1 rl w err es st' :
      setupRelay to st = (st1, inl rl) →
      Relay_Send rl (st_world st1) pkt = (w, inr err) →
      repair_reports prelay (GetDistantAddress rl) pkt (st_set_world st1 w) es st' →
      leg_reports prelay (Some to) pkt st es st'
with repair_reports
    : Relay → Address → Packet → sendst → list error → sendst → Prop :=
  | repair_no_route prelay gw pkt st t' e :
      OnFailure (st_table st) gw = (t', Some e) →
      repair_reports prelay gw pkt st
        ["no route to " +:+ addr_String gw +:+ ": " +:+ e]
        (st_push (st_set_table st t')
           ("no route to " +:+ addr_String gw +:+ ": " +:+ e))
  | repair_retried prelay gw pkt st t' es st' pkt' b :
      OnFailure (st_table st) gw = (t', None) →
      packet_reports prelay pkt (st_set_table st t') es st' pkt' b →
      repair_reports prelay gw pkt st es st'
with packet_reports
    : Relay → Packet → sendst → list error → sendst → Packet → bool → Prop :=
  | packet_legs prelay pkt st t' routes voids es st' :
      Forward (st_table st) (Slice pkt (me (st_sess st))).2 = (t', routes, voids) →
      legs_report prelay routes
        (st_push_all (st_set_table (local_part pkt st) t') (void_errs voids)) es st' →
      packet_reports prelay pkt st
        (local_errs pkt st ++ void_errs voids ++ es) st'
        (Slice pkt (me (st_sess st))).2
        (match routes, voids with
         | [], [] => bool_decide (is_Some (Slice pkt (me (st_sess st))).1)
         | _, _ => true
         end)
with legs_report
    : Relay → list (option Address * Packet) → sendst → list error → sendst → Prop :=
  | legs_done prelay st : legs_report prelay [] st [] st
  | legs_next prelay to pkt rest st es1 st1 es2 st2 :
      leg_reports prelay to pkt st es1 st1 →
      legs_report prelay rest st1 es2 st2 →
      legs_report prelay ((to, pkt) :: rest) st (es1 ++ es2) st2.

(** The same for the loop over the parents in the goroutine of [Send],
    started with [log] on the channel: the reports of the parents that
    refuse the packet, then those of the first that accepts it. *)
Inductive parents_report (data : bytes) (addrs : list Address)
    : list (Address * parent T) → session → world N → list error →
      list error → bool → Prop :=
  | parents_none s w log : parents_report data addrs [] s w log [] false
  | parents_accept a p rest s w log es st' pkt' :
      packet_reports (relay p) (Make (table p) (me s) addrs data)
        (mkSt s (table p) w log) es st' pkt' true →
      parents_report data addrs ((a, p) :: rest) s w log es true
  | parents_refuse a p rest s w log es1 st' pkt' es2 b :
      packet_reports (relay p) (Make (table p) (me s) addrs data)
        (mkSt s (table p) w log) es1 st' pkt' false →
      parents_report data addrs rest (st_sess st') (st_world st') (st_errs st') es2 b →
      parents_report data addrs ((a, p) :: rest) s w log (es1 ++ es2) b.

(** What the goroutine of [Send] reports before it closes the channel. *)
Inductive send_reports (msg : Msg) (addrs : list Address) (s : session) (w : world N)
    : list error → Prop :=
  | send_unserializable err :
      Serialize msg = inr err →
      send_reports msg addrs s w ["failed to serialize msg: " +:+ err]
  | send_accepted data es :
      Serialize msg = inl data →
      parents_report data addrs (parents s) s w [] es true →
      send_reports msg addrs s w es
  | send_ignored data es :
      Serialize msg = inl data →
      parents_report data addrs (parents s) s w [] es false →
      send_reports msg addrs s w (es ++ ["packet ignored"]).

(** The recursive call [retry] reports what [packet_reports] says. *)
Definition retry_reports
    (retry : Relay → Packet → sendst → outcome (sendst * Packet * bool)) : Prop :=
  ∀ prelay pkt st st' pkt' b,
    retry prelay pkt st = Ret (st', pkt', b) →
    ∃ es, packet_reports prelay pkt st es st' pkt' b ∧ st_errs st' = st_errs st ++ es.

  (** [rejects fuel ps pkt s w ps' pkt' s' w']: tried in order on the packet
      [pkt], every parent of [ps] has [sendPacket] return false; the calls
      leave the parents [ps'], the packet [pkt'], the session [s'] and the
      world [w']. *)
Inductive rejects (fuel : nat)
    : list (Address * parent T) → Packet → session → world N →
      list (Address * parent T) → Packet → session → world N → Prop :=
  | rejects_nil pkt s w : rejects fuel [] pkt s w [] pkt s w
  | rejects_cons a p rest pkt s w st pkt1 rest' pkt' s' w' :
      sendPacket fuel (relay p) pkt (mkSt s (table p) w []) = Ret (st, pkt1, false) →
      rejects fuel rest pkt1 (st_sess st) (st_world st) rest' pkt' s' w' →
      rejects fuel ((a, p) :: rest) pkt s w
              ((a, mkParent (relay p) (st_table st)) :: rest') pkt' s' w'.

End SessionOps.

End Session.

(** ** The block synchronizer *)

Module BlockSync.

(** [uint64] values are kept in [N]; the one increment of the code wraps. *)
Definition uint64_mod : N := 2 ^ 64.

(** The messages of [blocksync/types]; [OtherMessage] is any message of
    another type. *)
Inductive Message (Link : Type) : Type :=
| SyncMessage (latestIndex : N)
| SyncRequest (from : N)
| SyncReply (link : Link)
| SyncAck
| OtherMessage.
Arguments SyncMessage {Link} _.
Arguments SyncRequest {Link} _.
Arguments SyncReply {Link} _.
Arguments SyncAck {Link}.
Arguments OtherMessage {Link}.

(** [blockstore.BlockStore] and [pbft.StateMachine], which stores the block
    of a link it accepts. *)
Class Chain (B Link : Type) : Type := {
  Len : B → N;
  GetByIndex : B → N → result Link;
  CatchUp : B → Link → B * option error;
}.

(** [mino.Sender]: a call of [Send] yields the values that come out of the
    returned channel before it is closed. *)
Class Sender (S Link : Type) : Type := {
  mino_Send : S → Message Link → list Address → S * list (option error);
}.

(** [Event] *)
Record Event : Type := mkEvent {
  Soft : nat;
  Hard : nat;
  Errors : list error;
}.

(** The block store and the cell behind the [latest] pointer, which
    [NewSynchronizer] gives to both the synchronizer and its handler. *)
Record sync (B : Type) : Type := mkSync {
  latest : N;
  blocks : B;
}.
Arguments mkSync {B} _ _.
Arguments latest {B} _.
Arguments blocks {B} _.

Section Sync.
Context {B Link S : Type} `{!Chain B Link, !Sender S Link}.

  (** A result of [Recv]: sender and message, or an error. *)
Abbreviation received := (result (Address * Message Link)).

Definition set_latest (h : sync B) (v : N) : sync B := mkSync v (blocks h).
Definition set_blocks (h : sync B) (b : B) : sync B := mkSync (latest h) b.

  (** [NewSynchronizer] *)
Definition NewSynchronizer (b : B) : sync B := mkSync (Len b) b.

  (** [GetLatest] *)
Definition GetLatest (s : sync B) : N := latest s.

  (** [err := <-ch]: the first value of the channel, nil when it is closed
      and empty. *)
Definition first_err (ch : list (option error)) : option error :=
    match ch with
    | e :: _ => e
    | [] => None
    end.

  (** *** The handler *)

  (** [waitAnnounce]; the messages still to be received come back with the
      result.  It blocks when no announcement ever arrives. *)
Fixpoint waitAnnounce (ins : list received)
    : outcome (result (N * Address)) * list received :=
    match ins with
    | [] => (Blocked, [])
    | inr err :: rest => (Ret (inr ("receiver failed: " +:+ err)), rest)
    | inl (orch, SyncMessage idx) :: rest => (Ret (inl (idx, orch)), rest)
    | inl _ :: rest => waitAnnounce rest
    end.

  (** [ack] *)
Definition ack (out : S) (orch : Address) : S * option error :=
    let '(out, ch) := mino_Send out SyncAck [orch] in
    match first_err ch with
    | Some err => (out, Some ("sending ack failed: " +:+ err))
    | None => (out, None)
    end.

  (** The update of [latest] in [Stream], made with the handler locked. *)
Definition store_latest (idx : N) (h : sync B) : sync B :=
    if decide (latest h < idx)%N then set_latest h idx else h.

  (** The loop of [Stream] that feeds the replies to the state machine. *)
Fixpoint catch_up (idx : N) (ins : list received) (b : B)
    : B * outcome (option error) * list received :=
    if decide (Len b < idx)%N then
      match ins with
      | [] => (b, Blocked, [])
      | inr err :: rest => (b, Ret (Some ("receiver failed: " +:+ err)), rest)
      | inl (_, SyncReply link) :: rest =>
          let '(b', e) := CatchUp b link in
          match e with
          | Some err => (b', Ret (Some ("pbft catch up failed: " +:+ err)), rest)
          | None => catch_up idx rest b'
          end
      | inl _ :: rest => catch_up idx rest b
      end
    else (b, Ret None, ins).

  (** [handler.Stream].  The state comes back whatever the outcome. *)
Definition Stream (h : sync B) (out : S) (ins : list received)
    : sync B * S * outcome (option error) :=
    let '(r, ins) := waitAnnounce ins in
    match r with
    | Ret (inr err) => (h, out, Ret (Some ("no announcement: " +:+ err)))
    | Ret (inl (idx, orch)) =>
        if decide (idx ≤ Len (blocks h))%N then
          let '(out, e) := ack out orch in (h, out, Ret e)
        else
          let h := store_latest idx h in
          let '(out, ch) := mino_Send out (SyncRequest (Len (blocks h))) [orch] in
          match first_err ch with
          | Some err => (h, out, Ret (Some ("sending request failed: " +:+ err)))
          | None =>
              let '(b, r, _) := catch_up idx ins (blocks h) in
              let h := set_blocks h b in
              match r with
              | Ret None => let '(out, e) := ack out orch in (h, out, Ret e)
              | other => (h, out, other)
              end
          end
    | Panic msg => (h, out, Panic msg)
    | Blocked => (h, out, Blocked)
    | OutOfFuel => (h, out, OutOfFuel)
    end.

  (** *** The orchestrator *)

  (** [sendToChannel]: drains the channel, then sends the event. *)
Definition sendToChannel (ch : chan Event) (soft hard : gset Address)
      (errs : list error) : outcome (chan Event) :=
    let ch := mkChan (ch_cap ch) [] (ch_closed ch) in
    chan_send ch (mkEvent (size soft) (size hard) errs).

  (** The loop of [syncNode]; [n] bounds the number of turns. *)
Fixpoint syncNode_loop (n : nat) (i : N) (b : B) (sender : S) (to : Address)
    : S * option error :=
    match n with
    | 0 => (sender, None)
    | Datatypes.S n' =>
        if decide (i < Len b)%N then
          match GetByIndex b i with
          | inr err => (sender, Some ("couldn't get block: " +:+ err))
          | inl link =>
              let '(sender, ch) := mino_Send sender (SyncReply link) [to] in
              match first_err ch with
              | Some err => (sender, Some ("failed to send block: " +:+ err))
              | None => syncNode_loop n' ((i + 1) mod uint64_mod)%N b sender to
              end
          end
        else (sender, None)
    end.

  (** [syncNode]: at most [Len - from] turns are needed. *)
Definition syncNode (b : B) (from : N) (sender : S) (to : Address)
    : S * option error :=
    syncNode_loop (N.to_nat (Len b - from)) from b sender to.

  (** What [routine] has done so far: the sender, the channel of events
      with nobody receiving, every event sent on it, and the messages not
      yet received. *)
Record progress : Type := mkProgress {
    pr_sender : S;
    pr_ch : chan Event;
    pr_published : list Event;
    pr_ins : list received;
  }.

  (** One call of [sendToChannel] by [routine]. *)
Definition publish (p : progress) (soft hard : gset Address) (errs : list error)
    : outcome progress :=
    ch ← sendToChannel (pr_ch p) soft hard errs;
    Ret (mkProgress (pr_sender p) ch
           (pr_published p ++ [mkEvent (size soft) (size hard) errs]) (pr_ins p)).

  (** The second part of [routine]: the loop that waits for the hard
      synchronization of the players. *)
Fixpoint routine_loop (b : B) (players : nat) (ins : list received)
      (soft hard : gset Address) (hardErrs : list error) (p : progress)
    : progress * outcome (option error) :=
    if decide (size hard < players) then
      match ins with
      | [] => (p, Blocked)
      | inr err :: rest =>
          (mkProgress (pr_sender p) (pr_ch p) (pr_published p) rest,
           Ret (Some ("receiver failed: " +:+ err)))
      | inl (from, msg) :: rest =>
          let p := mkProgress (pr_sender p) (pr_ch p) (pr_published p) rest in
          match msg with
          | SyncRequest f =>
              if decide (from ∈ soft) then
                routine_loop b players rest soft hard hardErrs p
              else
                let soft := {[from]} ∪ soft in
                match publish p soft hard hardErrs with
                | Ret p =>
                    let '(sender, err) := syncNode b f (pr_sender p) from in
                    let p := mkProgress sender (pr_ch p) (pr_published p) rest in
                    match err with
                    | Some e =>
                        let hard := {[from]} ∪ hard in
                        let hardErrs := hardErrs ++ [e] in
                        match publish p soft hard hardErrs with
                        | Ret p => routine_loop b players rest soft hard hardErrs p
                        | Panic m => (p, Panic m)
                        | Blocked => (p, Blocked)
                        | OutOfFuel => (p, OutOfFuel)
                        end
                    | None => routine_loop b players rest soft hard hardErrs p
                    end
                | Panic m => (p, Panic m)
                | Blocked => (p, Blocked)
                | OutOfFuel => (p, OutOfFuel)
                end
          | SyncAck =>
              let soft := {[from]} ∪ soft in
              let hard := {[from]} ∪ hard in
              match publish p soft hard hardErrs with
              | Ret p => routine_loop b players rest soft hard hardErrs p
              | Panic m => (p, Panic m)
              | Blocked => (p, Blocked)
              | OutOfFuel => (p, OutOfFuel)
              end
          | _ => routine_loop b players rest soft hard hardErrs p
          end
      end
    else (p, Ret None).

  (** [for err := range errs { if err != nil { return ... } }] *)
Fixpoint announcement_error (errs : list (option error)) : option error :=
    match errs with
    | [] => None
    | Some err :: _ => Some ("announcement failed: " +:+ err)
    | None :: rest => announcement_error rest
    end.

  (** [routine].  [stream_err] is the error of [rpc.Stream]; on success the
      stream gives the sender [sender] and a receiver that yields [ins]. *)
Definition routine (s : sync B) (stream_err : option error)
      (players : list Address) (sender : S) (ins : list received)
      (ch : chan Event) : progress * outcome (option error) :=
    let p := mkProgress sender ch [] ins in
    match stream_err with
    | Some err => (p, Ret (Some ("stream failed: " +:+ err)))
    | None =>
        let latest := Len (blocks s) in
        let '(sender, errs) := mino_Send sender (SyncMessage latest) players in
        let p := mkProgress sender ch [] ins in
        match announcement_error errs with
        | Some err => (p, Ret (Some err))
        | None => routine_loop (blocks s) (length players) ins ∅ ∅ [] p
        end
    end.

  (** What [Sync] leaves behind: the progress of its goroutine and whether
      the goroutine got to close the channel it returned. *)
Record synced : Type := mkSynced {
    sy_progress : progress;
    sy_closed : bool;
  }.

  (** [Sync] *)
Definition Sync (s : sync B) (stream_err : option error)
      (players : list Address) (sender : S) (ins : list received) : synced :=
    let ch := make_chan 1 in
    let '(p, r) := routine s stream_err players sender ins ch in
    match r with
    | Ret _ =>
        match chan_close (pr_ch p) with
        | Ret ch' =>
            mkSynced (mkProgress (pr_sender p) ch' (pr_published p) (pr_ins p)) true
        | _ => mkSynced p false
        end
    | _ => mkSynced p false
    end.

  (** *** Runs of a synchronizer *)

  (** The calls that reach the state of one synchronizer. *)
Inductive call : Type :=
  | CallGetLatest
  | CallStream (out : S) (ins : list received)
  | CallSync (stream_err : option error) (players : list Address)
             (sender : S) (ins : list received).

  (** The values returned by the calls of [GetLatest] in a run, in order. *)
Fixpoint run_calls (s : sync B) (calls : list call) : list N :=
    match calls with
    | [] => []
    | CallGetLatest :: rest => GetLatest s :: run_calls s rest
    | CallStream out ins :: rest => run_calls (Stream s out ins).1.1 rest
    | CallSync _ _ _ _ :: rest => run_calls s rest
    end.
(** *** What the properties speak of *)

(** A received message that is not an announcement. *)
Definition not_announce (x : received) : Prop :=
  match x with
  | inl (_, SyncMessage _) => False
  | inl _ => True
  | inr _ => False
  end.

(** An event says no more than it can: as many hard-synchronized players
    as soft ones at most, and an error for a hard one only. *)
Definition event_ok (e : Event) : Prop :=
  Hard e ≤ Soft e ∧ length (Errors e) ≤ Hard e.

(** From one event to the next nothing goes down. *)
Definition events_grow (evs : list Event) : Prop :=
  ∀ i e1 e2, evs !! i = Some e1 → evs !! (Datatypes.S i) = Some e2 →
    Soft e1 ≤ Soft e2 ∧ Hard e1 ≤ Hard e2 ∧ length (Errors e1) ≤ length (Errors e2).

(** What the loop of [routine] keeps true of its sets and of its channel:
    the last event sent tells the sets as they are, and with nobody
    receiving it is the one value in the channel. *)
Definition routine_inv (soft hard : gset Address) (errs : list error)
    (p : progress) : Prop :=
  hard ⊆ soft ∧ length errs ≤ size hard
  ∧ ch_closed (pr_ch p) = false ∧ ch_cap (pr_ch p) = 1
  ∧ Forall event_ok (pr_published p)
  ∧ events_grow (pr_published p)
  ∧ match last (pr_published p) with
    | Some e => e = mkEvent (size soft) (size hard) errs ∧ ch_buf (pr_ch p) = [e]
    | None => hard = ∅ ∧ errs = [] ∧ ch_buf (pr_ch p) = []
    end.

(** What is true when the loop stops. *)
Definition routine_post (players : nat) (p : progress)
    (r : outcome (option error)) : Prop :=
  (r = Blocked ∨ ∃ e, r = Ret e)
  ∧ Forall event_ok (pr_published p)
  ∧ events_grow (pr_published p)
  ∧ ch_buf (pr_ch p) = match last (pr_published p) with Some e => [e] | None => [] end
  ∧ ch_closed (pr_ch p) = false
  ∧ (r = Ret None →
     match last (pr_published p) with
     | Some e => players ≤ Hard e
     | None => players = 0
     end).

End Sync.

End BlockSync.

(** ** Test doubles

    Small instances of the interfaces, in the manner of the [fake] package
    of the repository, on which the properties are exercised. *)

Module Fake.
Import Session BlockSync.

(** A packet: source, destinations, payload. *)
Record Packet : Type := mkPacket {
  src : Address;
  dest : list Address;
  msg : bytes;
}.

Definition slice (p : Packet) (a : Address) : option Packet * Packet :=
  match filter (λ d, d = a) (dest p) with
  | [] => (None, p)
  | mine =>
      (Some (mkPacket (src p) mine (msg p)),
       mkPacket (src p) (filter (λ d, d ≠ a) (dest p)) (msg p))
  end.

(** Three routing tables: [Flat] reaches every destination in one hop and
    cannot repair; [Via hops] sends everything through the first gateway of
    the list and falls back on the next one when told of a failure; [Up]
    hands everything to the parent. *)
Inductive Table : Type :=
| Flat
| Via (hops : list Address)
| Up.

Definition forward (t : Table) (p : Packet)
  : Table * list (option Address * Packet) * list (Address * error) :=
  match dest p with
  | [] => (t, [], [])
  | _ =>
      match t with
      | Flat => (t, map (λ d, (Some d, mkPacket (src p) [d] (msg p))) (dest p), [])
      | Via [] => (t, [], map (λ d, (d, "unreachable")) (dest p))
      | Via (g :: _) => (t, [(Some g, p)], [])
      | Up => (t, [(None, p)], [])
      end
  end.

Definition on_failure (t : Table) (a : Address) : Table * option error :=
  match t with
  | Via (g :: rest) =>
      if decide (a = g) then (Via rest, None)
      else (t, Some "not the gateway in use")
  | _ => (t, Some "no alternative")
  end.

#[global] Instance fake_router : Router Packet Table := {|
  GetSource := src;
  GetDestination := dest;
  GetMessage := msg;
  Slice := slice;
  SerializePacket := λ p, inl (msg p);
  PacketOf := λ data, inl (mkPacket (Addr "O") [Addr "A"; Addr "B"] data);
  Make := λ _ from to data, mkPacket from to data;
  Forward := forward;
  OnFailure := on_failure;
  PrepareHandshakeFor := λ _ _, inl [];
|}.

(** How many more failures a table can repair. *)
Definition repairs (t : Table) : nat :=
  match t with
  | Via hops => length hops
  | _ => 0
  end.

(** The outside world: the peers that cannot be dialled, and the errors
    that the peers put in their acknowledgements. *)
Record Net : Type := mkNet {
  dead : list Address;
  acked : list string;
}.

#[global] Instance fake_transport : Transport Net := {|
  Acquire := λ n a, (n, if decide (a ∈ dead n) then inr "unreachable" else inl 1);
  Release := λ n _, n;
  clientStream := λ n _ _, (n, inl (mkStream 7 true));
  streamHeader := λ n _, (n, None);
  clientForward := λ n _ _, (n, inl (mkAck (acked n)));
  streamSend := λ n _ _, (n, None);
  CloseSend := λ n _, (n, None);
  statusCode := λ _, "Unavailable";
|}.

(** The same world when the errors of its streams carry no gRPC status. *)
Definition raw_transport : Transport Net := {|
  Acquire := λ n a, (n, if decide (a ∈ dead n) then inr "unreachable" else inl 1);
  Release := λ n _, n;
  clientStream := λ n _ _, (n, inl (mkStream 7 true));
  streamHeader := λ n _, (n, None);
  clientForward := λ n _ _, (n, inl (mkAck (acked n)));
  streamSend := λ n _ _, (n, None);
  CloseSend := λ n _, (n, None);
  statusCode := λ _, "Unknown";
|}.

#[global] Instance fake_queue : Queue (list Packet) Packet := {|
  newNonBlockingQueue := [];
  QPush := λ q p, (q ++ [p], None);
  QPop := λ q, match q with [] => None | p :: rest => Some (p, rest) end;
|}.

(** A message is its payload; [None] is a message that cannot be
    serialized. *)
#[global] Instance fake_serde : Serde (option bytes) := {|
  Serialize := λ m, match m with Some d => inl d | None => inr "oops" end;
  Deserialize := λ d, inl (Some d);
|}.

Definition A : Address := Addr "A".
Definition B : Address := Addr "B".
Definition C : Address := Addr "C".

Definition quiet : world Net := mkWorld (mkNet [] []) [].
Definition B_dead : world Net := mkWorld (mkNet [B] []) [].
Definition chatty : world Net := mkWorld (mkNet [] ["e1"; "e2"; "e3"]) [].

Definition grumpy : world Net := mkWorld (mkNet [] ["e1"]) [].

Definition client_stream : PacketStream := mkStream 7 true.

(** The heap of a caller that holds one slice, [[wrap(B), C]]. *)
Definition one_slice : gmap nat (list Address) := {[ 0 := [newWrapAddress B; C] ]}.

(** The heap of a caller that holds the slice [[B]]. *)
Definition only_B : gmap nat (list Address) := {[ 0 := [B] ]}.

(** A fresh session at [A], and the same with one parent. *)
Definition fresh : session (list Packet) Table := NewSession A.

Definition with_parent (t : Table) : session (list Packet) Table :=
  SetPassive (NewStreamRelay (Addr "O") (mkStream 1 false)) t fresh.

Definition closed_once : session (list Packet) Table :=
  set_errs fresh (mkChan 1 [] true).

(** A chain is the number of its blocks, a link the index of its block. *)
#[global] Instance fake_chain : Chain N N := {|
  Len := λ b, b;
  GetByIndex := λ b i, if decide (i < b)%N then inl i else inr "not found";
  CatchUp := λ b link, if decide (link = b) then ((b + 1)%N, None)
                       else (b, Some "mismatch");
|}.

(** A sender that plays back the outcomes of its calls. *)
#[global] Instance fake_sender : Sender (list (list (option error))) N := {|
  mino_Send := λ s _ _, match s with [] => ([], []) | r :: rest => (rest, r) end;
|}.

(** The relay of the parent of [with_parent], a send state at that parent,
    and a packet for [B] and [C]. *)
Definition parent_relay : Relay := NewStreamRelay (Addr "O") (mkStream 1 false).

Definition at_parent (t : Table) (w : world Net)
  : sendst (N := Net) (T := Table) (Q := list Packet) :=
  mkSt (with_parent t) t w [].

Definition to_B_and_C : Packet := mkPacket A [B; C] [].

(** The world after one packet with an empty payload went up the stream of
    the parent, and the send state at the parent then. *)
Definition sent_up : world Net :=
  mkWorld (mkNet [] []) [EvStreamSend (mkStream 1 false) []].

Definition handed_up : sendst (N := Net) (T := Table) (Q := list Packet) :=
  mkSt (with_parent Up) Up sent_up [].

(** The state of the sender that plays back its outcomes. *)
Definition script : Type := list (list (option error)).

End Fake.

(** * Properties *)

(** ** Channels *)

Lemma chan_run_app {A} (evs1 evs2 : list (chan_ev A)) (st : chan_run_state A) :
  chan_run st (evs1 ++ evs2) = (st' ← chan_run st evs1; chan_run st' evs2).
Proof.
  revert st. induction evs1 as [| e evs1 IH]; intros st; simpl; [done |].
  destruct (chan_step st e) as [st' | | |]; simpl; [apply IH | done ..].
Qed.

Lemma pushes_map_Push {A} (l : list A) : pushes (map Push l) = l.
Proof. induction l as [| x l IH]; simpl; [done | by rewrite IH]. Qed.

Lemma pushes_app {A} (l1 l2 : list (chan_ev A)) :
  pushes (l1 ++ l2) = pushes l1 ++ pushes l2.
Proof. unfold pushes. apply omap_app. Qed.

Lemma closes_map_Push {A} (l : list A) : closes (map Push l) = 0.
Proof. induction l as [| x l IH]; simpl; [done | exact IH]. Qed.

Lemma closes_app {A} (l1 l2 : list (chan_ev A)) :
  closes (l1 ++ l2) = closes l1 + closes l2.
Proof. unfold closes. by rewrite filter_app, length_app. Qed.

(** Pushing [l] on an open channel succeeds as long as the values fit in
    what is left of the buffer plus what the consumer takes. *)
Lemma chan_run_pushes {A} (l : list A) (st : chan_run_state A) :
  ch_closed (run_chan st) = false →
  length (ch_buf (run_chan st)) ≤ ch_cap (run_chan st) →
  length (ch_buf (run_chan st)) + length l ≤ ch_cap (run_chan st) + run_reads st →
  ∃ st', chan_run st (map Push l) = Ret st' ∧
         ch_closed (run_chan st') = false ∧
         ch_cap (run_chan st') = ch_cap (run_chan st) ∧
         run_delivered st' = run_delivered st ++ l.
Proof.
  revert st. induction l as [| x l IH]; intros [[cap buf closed] reads got];
    simpl; intros Hopen Hfit Hroom.
  { eexists; split; [done |]. unfold run_delivered; simpl.
    by rewrite app_nil_r. }
  subst closed. unfold chan_send; simpl.
  destruct (decide (length buf < cap)) as [Hlt | Hge]; simpl.
  - destruct (IH (mkRun (mkChan cap (buf ++ [x]) false) reads got))
      as (st' & Hrun & Hc & Hcap & Hd); simpl;
      [done | rewrite length_app; simpl; lia | rewrite length_app; simpl; lia |].
    exists st'. split_and!; [done | done | done |].
    rewrite Hd. unfold run_delivered; simpl. by rewrite <- !app_assoc.
  - destruct reads as [| reads]; [lia |].
    destruct buf as [| y buf]; simpl in *.
    + destruct (IH (mkRun (mkChan cap [] false) reads (got ++ [x])))
        as (st' & Hrun & Hc & Hcap & Hd); simpl; [done | lia | lia |].
      exists st'. split_and!; [done | done | done |].
      rewrite Hd. unfold run_delivered; simpl. by rewrite !app_nil_r, <- app_assoc.
    + destruct (IH (mkRun (mkChan cap (buf ++ [x]) false) reads (got ++ [y])))
        as (st' & Hrun & Hc & Hcap & Hd); simpl;
        [done | rewrite length_app; simpl; lia | rewrite length_app; simpl; lia |].
      exists st'. split_and!; [done | done | done |].
      rewrite Hd. unfold run_delivered; simpl.
      by rewrite <- !app_assoc.
Qed.

(** A goroutine that pushes [l] and then closes, on a fresh channel. *)
Lemma chan_run_fresh {A} (cap reads : nat) (l : list A) :
  length l ≤ cap + reads →
  ∃ st, chan_run (mkRun (make_chan cap) reads []) (map Push l ++ [CloseCh]) = Ret st ∧
        ch_closed (run_chan st) = true ∧ run_delivered st = l.
Proof.
  intros Hfit.
  destruct (chan_run_pushes l (mkRun (make_chan cap) reads []))
    as (st & Hrun & Hopen & Hcap & Hd); simpl; [done | lia | lia |].
  rewrite chan_run_app, Hrun. simpl.
  unfold chan_close. rewrite Hopen. simpl.
  eexists; split_and!; [done | done |].
  unfold run_delivered in *; simpl in *. exact Hd.
Qed.

(** With nobody receiving, the pushes must fit the buffer: one more blocks
    the producer for ever. *)
Lemma chan_run_overflow {A} (cap : nat) (l : list A) (evs : list (chan_ev A)) :
  cap < length l →
  chan_run (mkRun (make_chan cap) 0 []) (map Push l ++ evs) = Blocked.
Proof.
  intros Hlen.
  assert (Hgen : ∀ (l : list A) (buf : list A),
    length buf ≤ cap → cap < length buf + length l →
    chan_run (mkRun (mkChan cap buf false) 0 []) (map Push l ++ evs) = Blocked).
  { clear l Hlen. induction l as [| x l IH]; intros buf Hb Hl; simpl in *; [lia |].
    unfold chan_send; simpl.
    destruct (decide (length buf < cap)) as [Hlt | Hge]; simpl; [| done].
    apply IH; rewrite length_app; simpl; lia. }
  apply (Hgen l []); simpl; lia.
Qed.

(** More pushes than the buffer and the consumer take together block the
    producer for ever, whatever it meant to do next. *)
Lemma chan_run_blocks {A} (cap reads : nat) (l : list A) (evs : list (chan_ev A)) :
  cap + reads < length l →
  chan_run (mkRun (make_chan cap) reads []) (map Push l ++ evs) = Blocked.
Proof.
  intros Hlen.
  assert (Hgen : ∀ (l : list A) (st : chan_run_state A),
    ch_closed (run_chan st) = false →
    length (ch_buf (run_chan st)) ≤ ch_cap (run_chan st) →
    ch_cap (run_chan st) + run_reads st < length (ch_buf (run_chan st)) + length l →
    chan_run st (map Push l ++ evs) = Blocked).
  { clear l Hlen. induction l as [| x l IH]; intros [[c buf closed] r got];
      simpl; intros Hopen Hb Hl; [lia |].
    subst closed. unfold chan_send; simpl.
    destruct (decide (length buf < c)) as [Hlt | Hge]; simpl.
    - apply IH; simpl; [done | rewrite length_app; simpl; lia
                        | rewrite length_app; simpl; lia].
    - destruct r as [| r]; [done |].
      destruct buf as [| y buf]; simpl in *.
      + apply IH; simpl; [done | lia | lia].
      + apply IH; simpl; [done | rewrite length_app; simpl; lia
                          | rewrite length_app; simpl; lia]. }
  apply (Hgen l (mkRun (make_chan cap) reads [])); simpl; [done | lia | lia].
Qed.

Lemma chan_run_no_reader {A} (evs : list (chan_ev A)) (st st' : chan_run_state A) :
  run_reads st = 0 → chan_run st evs = Ret st' →
  run_reads st' = 0 ∧ run_received st' = run_received st.
Proof.
  revert st. induction evs as [| e evs IH]; intros st Hr; simpl.
  { by intros [= <-]. }
  destruct (chan_step st e) as [st1 | | |] eqn:Hstep; simpl; try done.
  intros Hrun. apply IH in Hrun.
  - destruct Hrun as [-> ->]. split; [done |].
    destruct st as [c r got]; simpl in *; subst r.
    destruct e as [v |]; simpl in Hstep.
    + destruct (chan_send c v); simplify_eq/=; done.
    + destruct (chan_close c); simplify_eq/=; done.
  - destruct st as [c r got]; simpl in *; subst r.
    destruct e as [v |]; simpl in Hstep.
    + destruct (chan_send c v); simplify_eq/=; done.
    + destruct (chan_close c); simplify_eq/=; done.
Qed.

(** The channel of one turn of [RecvPacket]: the pushes of [sendPacket],
    then [close], with nobody receiving. *)
Lemma chan_run_turn {A} (cap : nat) (l : list A) :
  length l ≤ cap →
  ∃ run, chan_run (mkRun (make_chan cap) 0 []) (map Push l ++ [CloseCh]) = Ret run
         ∧ chan_range (run_chan run) = Ret l.
Proof.
  intros Hfit. destruct (chan_run_fresh cap 0 l) as (run & Hrun & Hc & Hd); [lia |].
  exists run. split; [done |].
  apply chan_run_no_reader in Hrun as [_ Hgot]; [| done].
  unfold chan_range, run_delivered in *. rewrite Hc. simpl in Hgot.
  by rewrite Hgot in Hd; simpl in Hd; rewrite Hd.
Qed.

(** ** The session *)

Module SessionTheory.
Import Session.

Section Closing.
Context {N Packet T Q Msg : Type}.
Context `{!Transport N, !Router Packet T, !Queue Q Packet, !Serde Msg}.
Implicit Types s : session Q T.

Lemma Close_first s :
  ch_closed (errs s) = false → wg s = 0 →
  Close s = Ret (set_errs s (mkChan (ch_cap (errs s)) (ch_buf (errs s)) true)).
Proof.
  intros Hopen Hwg. unfold Close, chan_close. rewrite Hopen. simpl.
  rewrite Hwg. by rewrite decide_True.
Qed.

Lemma Close_closed s :
  ch_closed (errs s) = true → Close s = Panic "close of closed channel".
Proof. intros Hc. unfold Close, chan_close. by rewrite Hc. Qed.

Ltac close_inv_case :=
  unfold close_inv;
  first [ by left | by right; left | by right; right ].

Lemma Close_step_closed s pc s' pc' :
  Close_step s pc = Ret (s', pc') →
  (pc = CloseEntry ∧ ch_closed (errs s) = false ∧ pc' = CloseWait
     ∧ ch_closed (errs s') = true)
  ∨ (pc ≠ CloseEntry ∧ pc' ≠ CloseEntry ∧ s' = s).
Proof.
  destruct pc; simpl.
  - unfold chan_close. destruct (ch_closed (errs s)) eqn:Hc; simpl; [done |].
    intros [= <- <-]. left. by simpl.
  - case_decide; intros [= <- <-]; right; done.
  - intros [= <- <-]; right; done.
Qed.

Lemma Close_par_inv sched s pc1 pc2 s' pc1' pc2' :
  close_inv s pc1 pc2 →
  Close_par sched s pc1 pc2 = Ret (s', pc1', pc2') →
  close_inv s' pc1' pc2'.
Proof.
  revert s pc1 pc2. induction sched as [| b sched IH]; intros s pc1 pc2 Hinv; simpl.
  { by intros [= <- <- <-]. }
  destruct b.
  - destruct (Close_step s pc1) as [[s1 pc1n] | | |] eqn:Hstep; simpl; try done.
    apply IH. apply Close_step_closed in Hstep.
    destruct Hstep as [(Hpc & Hc & Hpc' & Hc') | (Hne & Hne' & Hs)];
      destruct Hinv as [(? & ? & ?) | [(? & ? & ?) | (? & ? & ?)]];
      subst; try congruence; close_inv_case.
  - destruct (Close_step s pc2) as [[s1 pc2n] | | |] eqn:Hstep; simpl; try done.
    apply IH. apply Close_step_closed in Hstep.
    destruct Hstep as [(Hpc & Hc & Hpc' & Hc') | (Hne & Hne' & Hs)];
      destruct Hinv as [(? & ? & ?) | [(? & ? & ?) | (? & ? & ?)]];
      subst; try congruence; close_inv_case.
Qed.

(** C1 (as amended): [Close] is not idempotent.  On a session whose [errs]
    channel is open and whose wait group is drained, the first [Close]
    closes the channel and returns; every later [Close] panics on closing
    the closed channel; and no interleaving of two concurrent calls lets
    both get past their [close(s.errs)]. *)
Theorem Close_only_once s :
  ch_closed (errs s) = false → wg s = 0 →
  ∃ s1, Close s = Ret s1
        ∧ ch_closed (errs s1) = true
        ∧ Close s1 = Panic "close of closed channel"
        ∧ ∀ sched s' pc1 pc2,
            Close_par sched s CloseEntry CloseEntry = Ret (s', pc1, pc2) →
            pc1 = CloseEntry ∨ pc2 = CloseEntry.
Proof.
  intros Hopen Hwg. eexists. split; [by apply Close_first |].
  split; [done |]. split; [by apply Close_closed |].
  intros sched s' pc1 pc2 Hrun.
  eapply Close_par_inv in Hrun; [| left; done].
  destruct Hrun as [(? & ? & ?) | [(? & ? & ?) | (? & ? & ?)]]; auto.
Qed.
End Closing.

Lemma Close_only_once_witness :
  ∃ s1, Close Fake.fresh = Ret s1
        ∧ ch_closed (errs s1) = true
        ∧ Close s1 = Panic "close of closed channel"
        ∧ ∀ sched s' pc1 pc2,
            Close_par sched Fake.fresh CloseEntry CloseEntry = Ret (s', pc1, pc2) →
            pc1 = CloseEntry ∨ pc2 = CloseEntry.
Proof. apply (Close_only_once Fake.fresh); reflexivity. Defined.

(** C1, as stated, fails: the second [Close] of a fresh session does not
    return, it panics. *)
Lemma Close_twice_panics :
  Close Fake.fresh = Ret Fake.closed_once
  ∧ Close Fake.closed_once = Panic "close of closed channel"
  ∧ Close_par [true; false] Fake.fresh CloseEntry CloseEntry
    = Panic "close of closed channel".
Proof. split_and!; reflexivity. Qed.

Section RelayClosing.
Context {N : Type} `{!Transport N}.

(** C2 (as amended): the variants are the other way round.  [Close] of the
    stream relay does nothing, so it is idempotent; [Close] of the unicast
    relay asks the stream for a half-close when the stream is a client
    stream, on every call, and reports its failure; on any other stream it
    does nothing. *)
Theorem Relay_Close_variants (gw : Address) (stream : PacketStream)
    (conn : Conn) (w : world N) :
  Relay_Close (NewStreamRelay gw stream) w = (w, None)
  ∧ (let '(w1, err) := Relay_Close (NewRelay stream gw conn) w in
     let '(w2, _) := Relay_Close (NewRelay stream gw conn) w1 in
     if is_client stream then
       wire w1 = wire w ++ [EvCloseSend stream]
       ∧ net w1 = (CloseSend (net w) stream).1
       ∧ err = (λ e, "failed to close stream: " +:+ e) <$> (CloseSend (net w) stream).2
       ∧ wire w2 = wire w ++ [EvCloseSend stream; EvCloseSend stream]
     else w1 = w ∧ err = None ∧ w2 = w).
Proof.
  split; [done |]. simpl. unfold unicastRelay_Close, call_CloseSend.
  destruct (is_client stream) eqn:Hc.
  - destruct (CloseSend (net w) stream) as [n1 e1] eqn:H1. simpl.
    destruct (CloseSend n1 stream) as [n2 e2] eqn:H2.
    destruct e1 as [e1 |]; simpl; rewrite H2; destruct e2; simpl;
      rewrite <- ?app_assoc; done.
  - done.
Qed.
End RelayClosing.

(** C2, as stated, fails: on a client stream, [Close] of the stream relay
    sends nothing and [Close] of the unicast relay sends a half-close. *)
Lemma Relay_Close_stream_is_noop :
  wire (Relay_Close (NewStreamRelay Fake.B Fake.client_stream) Fake.quiet).1 = []
  ∧ wire (Relay_Close (NewRelay Fake.client_stream Fake.B 1) Fake.quiet).1
    = [EvCloseSend Fake.client_stream].
Proof. split; reflexivity. Qed.

Section SendPath.
Context {N Packet T Q Msg : Type}.
Context `{!Transport N, !Router Packet T, !Queue Q Packet, !Serde Msg}.
Implicit Types (s : session Q T) (st : sendst (N := N) (T := T) (Q := Q)).
Implicit Types (w : world N) (pkt : Packet) (prelay : Relay).

(** The recursive call that [sendPacket] hands to [onFailure]. *)
Lemma sendPacket_unfold fuel prelay pkt st :
  sendPacket fuel prelay pkt st
  = sendPacket_ (match fuel with
                 | 0 => λ _ _ _, OutOfFuel
                 | S fuel' => sendPacket fuel'
                 end) prelay pkt st.
Proof. by destruct fuel. Qed.

Lemma local_part_table pkt st : st_table (local_part pkt st) = st_table st.
Proof.
  unfold local_part. destruct (Slice pkt (me (st_sess st))).1; [| done].
  destruct (QPush _ _) as [q [e |]]; done.
Qed.

Lemma sendPacket__local retry prelay pkt st t' :
  Forward (st_table st) (Slice pkt (me (st_sess st))).2 = (t', [], []) →
  sendPacket_ retry prelay pkt st
  = Ret (st_set_table (local_part pkt st) t',
         (Slice pkt (me (st_sess st))).2,
         bool_decide (is_Some (Slice pkt (me (st_sess st))).1)).
Proof.
  intros Hfwd. unfold sendPacket_, local_part.
  destruct (Slice pkt (me (st_sess st))) as [[m |] pkt1]; simpl in *.
  - destruct (QPush (queue (st_sess st)) m) as [q [e |]]; simpl;
      rewrite Hfwd; done.
  - rewrite Hfwd. done.
Qed.

Lemma bind_true_result {A P : Type} (m : outcome A) (p : P) (r : A * P * bool) :
  (x ← m; Ret (x, p, true)) = Ret r → r.2 = true.
Proof. destruct m; simpl; [by intros [= <-] | done ..]. Qed.

(** [sendPacket] returns false only when nothing was delivered locally and
    the table gave neither routes nor voids; it has then pushed nothing and
    touched neither the session nor the world. *)
Lemma sendPacket__false retry prelay pkt st st' pkt' :
  sendPacket_ retry prelay pkt st = Ret (st', pkt', false) →
  (Slice pkt (me (st_sess st))).1 = None
  ∧ pkt' = (Slice pkt (me (st_sess st))).2
  ∧ Forward (st_table st) pkt' = (st_table st', [], [])
  ∧ st' = st_set_table st (st_table st').
Proof.
  unfold sendPacket_.
  destruct (Slice pkt (me (st_sess st))) as [[m |] pkt1]; cbn [fst snd].
  - destruct (QPush (queue (st_sess st)) m) as [q [e |]];
      match goal with |- context [Forward ?t ?p] =>
        destruct (Forward t p) as [[t1 routes] voids] end;
      destruct routes as [| r routes], voids as [| v voids];
      intros H; first [ by apply bind_true_result in H | by inversion H ].
  - destruct (Forward (st_table st) pkt1) as [[t1 routes] voids] eqn:Hfwd.
    destruct routes as [| r routes], voids as [| v voids];
      intros H; try (by apply bind_true_result in H).
    injection H as <- <-. done.
Qed.

Lemma sendPacket_false fuel prelay pkt st st' pkt' :
  sendPacket fuel prelay pkt st = Ret (st', pkt', false) →
  st_errs st' = st_errs st ∧ st_sess st' = st_sess st ∧ st_world st' = st_world st.
Proof.
  rewrite sendPacket_unfold. intros H%sendPacket__false.
  destruct H as (_ & _ & _ & ->). done.
Qed.

(** C6: when the table returns neither routes nor voids, [sendPacket]
    returns true exactly when [Slice] gave a local slice, whatever the
    parent and the packet. *)
Theorem sendPacket_local_only fuel prelay pkt st t' :
  Forward (st_table st) (Slice pkt (me (st_sess st))).2 = (t', [], []) →
  ∃ st', sendPacket fuel prelay pkt st
         = Ret (st', (Slice pkt (me (st_sess st))).2,
                bool_decide (is_Some (Slice pkt (me (st_sess st))).1)).
Proof.
  intros Hfwd. rewrite sendPacket_unfold.
  erewrite sendPacket__local by exact Hfwd. by eexists.
Qed.

(** *** The head of Send *)

Lemma unwrap_from_length n i (addrs : list Address) :
  length (unwrap_from n i addrs) = length addrs.
Proof.
  revert i addrs. induction n as [| n IH]; intros i addrs; simpl; [done |].
  rewrite IH. destruct (addrs !! i) as [[? | inner] |]; simpl;
    by rewrite ?length_insert.
Qed.

Lemma unwrap_from_lookup n i (addrs : list Address) j :
  unwrap_from n i addrs !! j
  = if decide (i ≤ j < i + n) then Unwrap <$> addrs !! j else addrs !! j.
Proof.
  revert i addrs. induction n as [| n IH]; intros i addrs; simpl.
  { case_decide; [lia | done]. }
  rewrite IH.
  assert (Hstep : ∀ k,
    (match addrs !! i with
     | Some (wrapAddress inner) => <[i := inner]> addrs
     | _ => addrs
     end) !! k
    = if decide (k = i) then Unwrap <$> addrs !! k else addrs !! k).
  { intros k. destruct (decide (k = i)) as [-> | Hne].
    - destruct (addrs !! i) as [[sa | inner] |] eqn:Hi; simpl.
      + by rewrite Hi.
      + rewrite list_lookup_insert_eq; [done |]. by eapply lookup_lt_Some.
      + by rewrite Hi.
    - destruct (addrs !! i) as [[sa | inner] |] eqn:Hi; simpl; [done | | done].
      by rewrite list_lookup_insert_ne. }
  rewrite Hstep.
  repeat case_decide; try lia; try done.
Qed.

(** The loop amounts to unwrapping every element once. *)
Lemma unwrap_addrs_map (addrs : list Address) :
  unwrap_addrs addrs = map Unwrap addrs.
Proof.
  apply list_eq. intros j. unfold unwrap_addrs.
  rewrite unwrap_from_lookup, list_lookup_fmap.
  case_decide as Hj; [done |].
  rewrite (lookup_ge_None_2 addrs j) by lia. done.
Qed.
End SendPath.

Section Termination.
Context {N Packet T Q Msg : Type}.
Context `{!Transport N, !Router Packet T, !Queue Q Packet, !Serde Msg}.
Implicit Types (s : session Q T) (st : sendst (N := N) (T := T) (Q := Q)).
Implicit Types (w : world N) (pkt : Packet) (prelay : Relay).
Variable mu : T → nat.
Hypothesis Hconv : converges (Packet := Packet) mu.

Lemma extends_refl st : extends mu st st.
Proof. split; [done |]. exists []. by rewrite app_nil_r. Qed.

Lemma extends_trans st1 st2 st3 : extends mu st1 st2 → extends mu st2 st3 → extends mu st1 st3.
Proof.
  intros [H1 [es1 E1]] [H2 [es2 E2]]. split; [lia |].
  exists (es1 ++ es2). by rewrite E2, E1, app_assoc.
Qed.

Lemma extends_push st e : extends mu st (st_push st e).
Proof. split; [done |]. by exists [e]. Qed.

Lemma extends_push_all st es : extends mu st (st_push_all st es).
Proof. split; [done |]. by exists es. Qed.

Lemma setupRelay_extends addr st : extends mu st (setupRelay addr st).1.
Proof.
  unfold setupRelay.
  repeat case_match; simpl;
    (split; simpl; [lia | exists []; by rewrite app_nil_r]).
Qed.

Lemma onFailure_returns retry bound prelay gw pkt st :
  retry_ok mu retry bound → mu (st_table st) ≤ bound →
  ∃ st', onFailure_ retry prelay gw pkt st = Ret st' ∧ extends mu st st'.
Proof.
  intros Hretry Hmu. unfold onFailure_.
  destruct (OnFailure (st_table st) gw) as [t' [e |]] eqn:Hof.
  - eexists; split; [done |].
    eapply extends_trans; [| apply extends_push].
    split; [| exists []; by rewrite app_nil_r]. simpl.
    eapply conv_fail; eauto.
  - pose proof (conv_repair _ Hconv _ _ _ Hof) as Hlt.
    destruct (Hretry prelay pkt (st_set_table st t')) as (st' & pkt' & b & Hr & Hext);
      [simpl; lia |].
    rewrite Hr. simpl. eexists; split; [done |].
    eapply extends_trans; [| exact Hext].
    split; [simpl; lia | exists []; by rewrite app_nil_r].
Qed.

Lemma sendTo_returns retry bound prelay to pkt st :
  retry_ok mu retry bound → mu (st_table st) ≤ bound →
  ∃ st', sendTo_ retry prelay to pkt st = Ret st' ∧ extends mu st st'.
Proof.
  intros Hretry Hmu. unfold sendTo_. destruct to as [to |].
  - pose proof (setupRelay_extends to st) as Hsetup.
    destruct (setupRelay to st) as [st1 [rl | err]]; simpl in Hsetup.
    + destruct (Relay_Send rl (st_world st1) pkt) as [w1 [ack | err]].
      * eexists; split; [done |].
        eapply extends_trans; [exact Hsetup |].
        eapply extends_trans; [| apply extends_push_all].
        split; [done | exists []; by rewrite app_nil_r].
      * destruct (onFailure_returns retry bound prelay (GetDistantAddress rl) pkt
                    (st_set_world st1 w1) Hretry) as (st' & Hr & Hext).
        { simpl. destruct Hsetup as [Hle _]. lia. }
        exists st'. split; [done |].
        eapply extends_trans; [exact Hsetup |].
        eapply extends_trans; [| exact Hext].
        split; [done | exists []; by rewrite app_nil_r].
    + destruct (onFailure_returns retry bound prelay to pkt st1 Hretry)
        as (st' & Hr & Hext).
      { destruct Hsetup as [Hle _]. lia. }
      exists st'. split; [done |]. by eapply extends_trans.
  - destruct (Relay_Send prelay (st_world st) pkt) as [w1 [ack | err]].
    + eexists; split; [done |].
      eapply extends_trans; [| apply extends_push_all].
      split; [done | exists []; by rewrite app_nil_r].
    + eexists; split; [done |].
      eapply extends_trans; [| apply extends_push].
      split; [done | exists []; by rewrite app_nil_r].
Qed.

Lemma sendTo_all_returns retry bound prelay routes st :
  retry_ok mu retry bound → mu (st_table st) ≤ bound →
  ∃ st', sendTo_all retry prelay routes st = Ret st' ∧ extends mu st st'.
Proof.
  intros Hretry. revert st.
  induction routes as [| [addr packet] routes IH]; intros st Hmu; simpl.
  { eexists; split; [done | apply extends_refl]. }
  destruct (sendTo_returns retry bound prelay addr packet st Hretry Hmu)
    as (st1 & Hr & Hext).
  rewrite Hr. simpl.
  destruct (IH st1) as (st2 & Hr2 & Hext2); [destruct Hext; lia |].
  exists st2. split; [done |]. by eapply extends_trans.
Qed.

Lemma foldl_push_extends (voids : list (Address * error)) st :
  extends mu st
    (foldl (λ st v, st_push st ("no route to " +:+ addr_String v.1 +:+ ": " +:+ v.2))
           st voids).
Proof.
  revert st. induction voids as [| v voids IH]; intros st; simpl.
  - apply extends_refl.
  - eapply extends_trans; [apply extends_push | apply IH].
Qed.

Lemma local_part_extends pkt st : extends mu st (local_part pkt st).
Proof.
  unfold local_part. destruct (Slice pkt (me (st_sess st))).1; [| apply extends_refl].
  destruct (QPush _ _) as [q [e |]].
  - eapply extends_trans; [| apply extends_push].
    split; [done | exists []; by rewrite app_nil_r].
  - split; [done | exists []; by rewrite app_nil_r].
Qed.

(** [sendPacket] as the local part followed by the routes. *)
Lemma sendPacket__eq retry prelay pkt st :
  sendPacket_ retry prelay pkt st
  = let pkt1 := (Slice pkt (me (st_sess st))).2 in
    let '(t', routes, voids) := Forward (st_table st) pkt1 in
    let st1 :=
      foldl (λ st v, st_push st ("no route to " +:+ addr_String v.1 +:+ ": " +:+ v.2))
            (st_set_table (local_part pkt st) t') voids in
    match routes, voids with
    | [], [] => Ret (st1, pkt1, bool_decide (is_Some (Slice pkt (me (st_sess st))).1))
    | _, _ => st' ← sendTo_all retry prelay routes st1; Ret (st', pkt1, true)
    end.
Proof.
  unfold sendPacket_, local_part.
  destruct (Slice pkt (me (st_sess st))) as [[m |] pkt1]; cbn [fst snd]; [| done].
  destruct (QPush (queue (st_sess st)) m) as [q [e |]]; done.
Qed.

Lemma sendPacket__returns retry bound prelay pkt st :
  retry_ok mu retry bound → mu (st_table st) ≤ bound →
  ∃ st' pkt' b, sendPacket_ retry prelay pkt st = Ret (st', pkt', b) ∧ extends mu st st'.
Proof.
  intros Hretry Hmu. rewrite sendPacket__eq. cbv zeta.
  destruct (Forward (st_table st) (Slice pkt (me (st_sess st))).2)
    as [[t' routes] voids] eqn:Hfwd.
  pose proof (conv_forward _ Hconv _ _ _ _ _ Hfwd) as Hle.
  cbv beta iota zeta.
  match goal with |- context [foldl ?f ?a voids] => set (st1 := foldl f a voids) end.
  assert (Hext1 : extends mu st st1).
  { eapply extends_trans; [apply (local_part_extends pkt) |].
    eapply extends_trans; [| apply foldl_push_extends].
    split; [simpl; by rewrite local_part_table | exists []; by rewrite app_nil_r]. }
  destruct (sendTo_all_returns retry bound prelay routes st1 Hretry)
    as (st2 & Hr & Hext2); [destruct Hext1; lia |].
  assert (Hgo : ∃ st' pkt' b,
    (st' ← sendTo_all retry prelay routes st1;
     Ret (st', (Slice pkt (me (st_sess st))).2, true)) = Ret (st', pkt', b)
    ∧ extends mu st st').
  { rewrite Hr. simpl. do 3 eexists. split; [done |]. by eapply extends_trans. }
  destruct routes as [| r routes], voids as [| v voids]; try exact Hgo.
  do 3 eexists. split; [done |]. exact Hext1.
Qed.

(** With a converging table, a budget of one retry per repair is enough
    for [sendPacket] to return. *)
Lemma sendPacket_returns fuel prelay pkt st :
  mu (st_table st) ≤ fuel →
  ∃ st' pkt' b, sendPacket fuel prelay pkt st = Ret (st', pkt', b) ∧ extends mu st st'.
Proof.
  revert prelay pkt st. induction fuel as [| fuel IH]; intros prelay pkt st Hmu;
    rewrite sendPacket_unfold; eapply sendPacket__returns; try exact Hmu.
  - intros ? ? ? ?. lia.
  - intros prelay' pkt' st' Hlt. apply IH. lia.
Qed.

Lemma Send_parents_returns fuel data addrs (ps : list (Address * parent T)) s w log :
  (∀ a p, (a, p) ∈ ps → mu (table p) ≤ fuel) →
  ∃ l b, Send_parents fuel data addrs ps s w log = Ret (l, b)
         ∧ ∃ es, lp_errs l = log ++ es.
Proof.
  revert s w log. induction ps as [| [a p] ps IH]; intros s w log Hps; simpl.
  { do 2 eexists. split; [done |]. exists []. by rewrite app_nil_r. }
  destruct (sendPacket_returns fuel (relay p) (Make (table p) (me s) addrs data)
              (mkSt s (table p) w log)) as (st & pkt' & b & Hr & Hext).
  { simpl. apply (Hps a). left. }
  rewrite Hr. simpl. destruct Hext as [_ [es Hes]]. simpl in Hes.
  destruct b.
  - do 2 eexists. split; [done |]. by exists es.
  - destruct (IH (st_sess st) (st_world st) (st_errs st)) as (l & b & Hl & es' & Hes').
    { intros a' p' Hin. apply (Hps a'). by right. }
    rewrite Hl. simpl. do 2 eexists. split; [done |]. simpl.
    exists (es ++ es'). by rewrite Hes', Hes, app_assoc.
Qed.

End Termination.

Section Sending.
Context {N Packet T Q Msg : Type}.
Context `{!Transport N, !Router Packet T, !Queue Q Packet, !Serde Msg}.
Implicit Types (s : session Q T) (st : sendst (N := N) (T := T) (Q := Q)).
Implicit Types (w : world N) (pkt : Packet) (prelay : Relay).
Implicit Types (h : gmap nat (list Address)) (msg : Msg).

(** A loop of [Send] in which no parent accepts has pushed nothing; it
    leaves the session and the world as they were. *)
Lemma Send_parents_refused fuel data addrs (ps : list (Address * parent T)) s w log l :
  Send_parents fuel data addrs ps s w log = Ret (l, false) →
  lp_errs l = log ∧ lp_sess l = s ∧ lp_world l = w.
Proof.
  revert s w log l. induction ps as [| [a p] ps IH]; intros s w log l; simpl.
  { by intros [= <-]. }
  destruct (sendPacket fuel (relay p) (Make (table p) (me s) addrs data)
              (mkSt s (table p) w log)) as [[[st pkt'] b] | | |] eqn:Hsp;
    simpl; try done.
  destruct b; [done |].
  apply sendPacket_false in Hsp. simpl in Hsp. destruct Hsp as (He & Hs & Hw).
  destruct (Send_parents fuel data addrs ps (st_sess st) (st_world st) (st_errs st))
    as [[l' b'] | | |] eqn:Hrest; simpl; try done.
  intros [= <- ->]. apply IH in Hrest. simpl.
  destruct Hrest as (-> & -> & ->). done.
Qed.

(** C4: when the message serializes and no parent accepts the packet, with
    no parent at all as a special case, the only thing pushed on the
    channel is the error "packet ignored", after which it is closed. *)
Theorem Send_packet_ignored fuel msg l h s w data lp :
  Serialize msg = inl data →
  Send_parents fuel data (unwrap_addrs (default [] (h !! l))) (parents s) s w []
  = Ret (lp, false) →
  (∃ snt, (Send fuel msg l h s w).2 = Ret snt
          ∧ snt_events snt = [Push "packet ignored"; CloseCh])
  ∧ ∀ reads, yields_one "packet ignored" (Send_observe reads (Send fuel msg l h s w)).
Proof.
  intros Hser Hloop.
  pose proof (Send_parents_refused _ _ _ _ _ _ _ _ Hloop) as (Hlog & _ & _).
  assert (Hrt : Send_routine fuel msg (unwrap_addrs (default [] (h !! l))) s w
                = Ret (mkSent (set_parents (lp_sess lp) (lp_parents lp)) (lp_world lp)
                              (map Push ["packet ignored"] ++ [CloseCh]))).
  { unfold Send_routine. rewrite Hser, Hloop. simpl. by rewrite Hlog. }
  split.
  - eexists. split; [exact Hrt | done].
  - intros reads. unfold yields_one, Send_observe, Send. cbn [fst snd].
    rewrite Hrt. cbn [mbind outcome_bind snt_events].
    apply chan_run_fresh. simpl. lia.
Qed.

(** C5: when the message does not serialize, the goroutine of [Send]
    pushes the serialization error, closes the channel, and leaves the
    session and the world as they were: no relay, no packet in the queue,
    nothing on the wire. *)
Theorem Send_serialize_failure fuel msg l h s w err :
  Serialize msg = inr err →
  (Send fuel msg l h s w).2
  = Ret (mkSent s w [Push ("failed to serialize msg: " +:+ err); CloseCh])
  ∧ ∀ reads, yields_one ("failed to serialize msg: " +:+ err)
                        (Send_observe reads (Send fuel msg l h s w)).
Proof.
  intros Hser.
  assert (Hrt : Send_routine fuel msg (unwrap_addrs (default [] (h !! l))) s w
                = Ret (mkSent s w (map Push ["failed to serialize msg: " +:+ err]
                                   ++ [CloseCh]))).
  { unfold Send_routine. by rewrite Hser. }
  split; [exact Hrt |].
  intros reads. unfold yields_one, Send_observe, Send. cbn [fst snd].
  rewrite Hrt. cbn [mbind outcome_bind snt_events].
  apply chan_run_fresh. simpl. lia.
Qed.

(** C9: [Send] writes through the slice it is given.  After the call the
    slice of the caller holds, at every index, what was there with one
    level of wrapping removed; the goroutine builds its packets from these
    addresses only; and since the sender that [Recv] reports is the source
    of the packet wrapped once, sending to it addresses the source. *)
Theorem Send_unwraps_in_place fuel msg l h s w addrs :
  h !! l = Some addrs →
  (Send fuel msg l h s w).1.1 !! l = Some (map Unwrap addrs)
  ∧ (∀ i a, addrs !! i = Some (wrapAddress a) → map Unwrap addrs !! i = Some a)
  ∧ (∀ i name, addrs !! i = Some (Addr name) → map Unwrap addrs !! i = Some (Addr name))
  ∧ (∀ l', l' ≠ l → (Send fuel msg l h s w).1.1 !! l' = h !! l')
  ∧ (Send fuel msg l h s w).2 = Send_routine fuel msg (map Unwrap addrs) s w
  ∧ (∀ ctx s' from m, Recv ctx CaseQueue s = Ret (s', inl (from, m)) →
       ∃ packet q, QPop (queue s) = Some (packet, q)
                   ∧ from = wrapAddress (GetSource packet)
                   ∧ map Unwrap [from] = [GetSource packet]).
Proof.
  intros Hl. unfold Send. rewrite Hl. cbn [fst snd default].
  rewrite unwrap_addrs_map.
  split; [by rewrite lookup_insert_eq |].
  split; [intros i a Hi; by rewrite list_lookup_fmap, Hi |].
  split; [intros i name Hi; by rewrite list_lookup_fmap, Hi |].
  split; [intros l' Hne; by rewrite lookup_insert_ne |].
  split; [done |].
  intros ctx s' from m. unfold Recv.
  destruct (QPop (queue s)) as [[packet q] |]; [| done].
  destruct (Deserialize (GetMessage packet)) as [m' | e]; [| done].
  intros [= <- <- <-]. by exists packet, q.
Qed.
End Sending.

Section Receiving.
Context {N Packet T Q Msg : Type}.
Context `{!Transport N, !Router Packet T, !Queue Q Packet, !Serde Msg}.
Implicit Types (s : session Q T) (st : sendst (N := N) (T := T) (Q := Q)).
Implicit Types (w : world N) (pkt : Packet) (prelay : Relay).

Lemma RecvPacket_parents_rejects fuel ps pkt s w ps' pkt' s' w' after :
  rejects fuel ps pkt s w ps' pkt' s' w' →
  RecvPacket_parents fuel (ps ++ after) pkt s w
  = ('(l, ack) ← RecvPacket_parents fuel after pkt' s' w';
     Ret (mkLoop (ps' ++ lp_parents l) (lp_sess l) (lp_world l) (lp_errs l), ack)).
Proof.
  induction 1 as [pkt s w | a p rest pkt s w st pkt1 rest' pkt' s' w' Hsp Hrej IH].
  - simpl. destruct (RecvPacket_parents fuel after pkt s w) as [[[? ? ? ?] ack] | | |];
      done.
  - simpl. rewrite Hsp. cbn [mbind outcome_bind].
    apply sendPacket_false in Hsp as (He & _ & _). simpl in He. rewrite He.
    cbn. rewrite IH.
    destruct (RecvPacket_parents fuel after pkt' s' w') as [[l ack] | | |]; done.
Qed.

(** C7: [RecvPacket] hands the packet to the parents in order.  When the
    parents before one all refuse it and that one accepts, the answer is an
    [Ack] whose errors are exactly, and in order, what that call of
    [sendPacket] pushed, provided they fit the channel allocated for the
    turn (one place per destination); the parents after it are not tried.
    When they do not fit, [RecvPacket] never returns.  When all the
    parents refuse, the answer is an error that tells how many they were. *)
Theorem RecvPacket_ack fuel from p s w pkt :
  PacketOf p = inl pkt →
  (∀ before a par after before' pkt0 s0 w0 st1 pkt1,
     parents s = before ++ (a, par) :: after →
     rejects fuel before pkt s w before' pkt0 s0 w0 →
     sendPacket fuel (relay par) pkt0 (mkSt s0 (table par) w0 []) = Ret (st1, pkt1, true) →
     (length (st_errs st1) ≤ length (GetDestination pkt0) →
      RecvPacket fuel from p s w
      = Ret (set_parents (st_sess st1)
               (before' ++ (a, mkParent (relay par) (st_table st1)) :: after),
             st_world st1, inl (mkAck (st_errs st1))))
     ∧ (length (GetDestination pkt0) < length (st_errs st1) →
        RecvPacket fuel from p s w = Blocked))
  ∧ (∀ ps' pkt' s' w',
       rejects fuel (parents s) pkt s w ps' pkt' s' w' →
       RecvPacket fuel from p s w
       = Ret (set_parents s' ps', w',
              inr ("packet is dropped (tried " +:+ pretty (length (parents s))
                   +:+ " parent-s)"))).
Proof.
  intros Hpkt. unfold RecvPacket. rewrite Hpkt. split.
  - intros before a par after before' pkt0 s0 w0 st1 pkt1 Hps Hrej Hsp.
    rewrite Hps, (RecvPacket_parents_rejects _ _ _ _ _ _ _ _ _ _ Hrej).
    simpl. rewrite Hsp. cbn [mbind outcome_bind]. split.
    + intros Hfit. destruct (chan_run_turn _ _ Hfit) as (run & -> & Hrange).
      cbn [mbind outcome_bind]. rewrite Hrange. done.
    + intros Hover. by rewrite chan_run_overflow.
  - intros ps' pkt' s' w' Hrej.
    rewrite <- (app_nil_r (parents s)) at 1.
    rewrite (RecvPacket_parents_rejects _ _ _ _ _ _ _ _ _ _ Hrej).
    simpl. by rewrite app_nil_r.
Qed.
End Receiving.

Section Entry.
Context {N Packet T Q Msg : Type}.
Context `{!Transport N, !Router Packet T, !Queue Q Packet, !Serde Msg}.
Implicit Types (s : session Q T) (w : world N).

(** The steps of [Close_step], taken by one caller alone, are [Close]. *)
Lemma Close_steps s s' :
  Close s = Ret s' →
  Close_par [true; true] s CloseEntry CloseEntry = Ret (s', CloseDone, CloseEntry).
Proof.
  unfold Close. simpl. destruct (chan_close (errs s)) as [c | | |]; simpl; try done.
  case_decide; [| done]. by intros [= <-].
Qed.

(** A wire packet that does not deserialize is refused before any parent
    is tried. *)
Lemma RecvPacket_malformed fuel from p s w err :
  PacketOf p = inr err →
  RecvPacket fuel from p s w = Ret (s, w, inr ("packet malformed: " +:+ err)).
Proof. intros Hp. unfold RecvPacket. by rewrite Hp. Qed.
End Entry.

(** *** More of the session *)

Section Parents.
Context {N Packet T Q Msg : Type}.
Context `{!Transport N, !Router Packet T, !Queue Q Packet, !Serde Msg}.
Implicit Types (s : session Q T) (ps : list (Address * parent T)).

Lemma parents_insert_keys addr (p : parent T) ps :
  (parents_insert addr p ps).*1
  = if decide (addr ∈ ps.*1) then ps.*1 else ps.*1 ++ [addr].
Proof.
  induction ps as [| [a q] ps IH]; [done |].
  cbn [parents_insert]. rewrite fmap_cons. cbn [fst].
  destruct (decide (a = addr)) as [-> | Hne]; rewrite ?fmap_cons; cbn [fst].
  - rewrite decide_True by left. done.
  - rewrite IH. destruct (decide (addr ∈ ps.*1)) as [Hin | Hnin].
    + rewrite decide_True by (by right). done.
    + rewrite decide_False; [done |].
      intros [? | ?]%elem_of_cons; congruence.
Qed.

Lemma parents_insert_lookup addr (p : parent T) ps :
  NoDup ps.*1 →
  ∀ a q, (a, q) ∈ parents_insert addr p ps ↔
         (a = addr ∧ q = p) ∨ (a ≠ addr ∧ (a, q) ∈ ps).
Proof.
  induction ps as [| [b r] ps IH]; simpl; intros Hnd a q.
  { rewrite list_elem_of_singleton. split.
    - intros [= -> ->]. by left.
    - intros [[-> ->] | [_ []%elem_of_nil]]. done. }
  apply NoDup_cons in Hnd as [Hb Hnd].
  destruct (decide (b = addr)) as [-> | Hne].
  - rewrite !elem_of_cons. split.
    + intros [[= -> ->] | Hin]; [by left |]. right. split; [| by right].
      intros ->. apply Hb. apply list_elem_of_fmap. by exists (addr, q).
    + intros [[-> ->] | [Hne [[= -> ->] | Hin]]]; [by left | done | by right].
  - rewrite !elem_of_cons, (IH Hnd). split.
    + intros [[= -> ->] | [[-> ->] | [Hne' Hin]]].
      * right. split; [done | by left].
      * by left.
      * right. split; [done | by right].
    + intros [[-> ->] | [Hne' [[= -> ->] | Hin]]].
      * right. by left.
      * by left.
      * right. right. done.
Qed.

(** X1: SetPassive keeps one entry per address: it replaces the parent
    registered under the distant address of the relay, or adds one. *)
Theorem SetPassive_registers (p : Relay) (t : T) s :
  NoDup (parents s).*1 →
  NoDup (parents (SetPassive p t s)).*1
  ∧ GetNumParents (SetPassive p t s)
    = (if decide (GetDistantAddress p ∈ (parents s).*1)
       then GetNumParents s else S (GetNumParents s))
  ∧ ∀ a q, (a, q) ∈ parents (SetPassive p t s) ↔
           (a = GetDistantAddress p ∧ q = mkParent p t)
           ∨ (a ≠ GetDistantAddress p ∧ (a, q) ∈ parents s).
Proof.
  intros Hnd. unfold SetPassive, GetNumParents. simpl. split_and!.
  - rewrite parents_insert_keys. case_decide; [done |].
    apply NoDup_app. split_and!; [done | | apply NoDup_singleton].
    intros x Hx ->%list_elem_of_singleton. done.
  - rewrite <- !(length_fmap fst), parents_insert_keys.
    case_decide; [done |]. rewrite length_app. simpl. lia.
  - by apply parents_insert_lookup.
Qed.
End Parents.

Section Listening.
Context {N Packet T Q Msg : Type}.
Context `{!Transport N, !Router Packet T, !Queue Q Packet, !Serde Msg}.
Implicit Types (s : session Q T) (ps : list (Address * parent T)).
Implicit Types (r : stream_result) (rs : list stream_result).

Lemma parents_delete_insert addr (p : parent T) ps :
  parents_delete addr (parents_insert addr p ps) = parents_delete addr ps.
Proof.
  unfold parents_delete. induction ps as [| [a q] ps IH]; simpl.
  { rewrite filter_cons_False; [done |]. simpl. by intros []. }
  destruct (decide (a = addr)) as [-> | Hne].
  - rewrite !filter_cons_False; [done | simpl; by intros [] ..].
  - rewrite !filter_cons_True by done. by rewrite IH.
Qed.

Lemma stream_over_unexpected r :
  stream_over r = false ↔ is_Some (unexpected r).
Proof.
  unfold stream_over, unexpected, stream_code.
  destruct r as [| | e]; simpl.
  - split; [done | by intros [? [=]]].
  - split; [done | by intros [? [=]]].
  - case_decide as He.
    + rewrite bool_decide_eq_true_2 by done. simpl. split; [eauto | done].
    + rewrite bool_decide_eq_false_2 by done. simpl. split; [done | by intros [? [=]]].
Qed.

(** The loop of [Listen] ends on the first result of the stream: a packet
    ends it too, for its nil error has the code [OK]. *)
Lemma Listen_loop_first r rs s :
  Listen_loop (r :: rs) s
  = match unexpected r with
    | Some e =>
        c ← chan_send (errs s) ("stream closed unexpectedly: " +:+ e);
        Ret (set_errs s c)
    | None => Ret s
    end.
Proof.
  simpl. destruct (stream_over r) eqn:Hover.
  - destruct (unexpected r) eqn:Hu; [| done].
    assert (is_Some (unexpected r)) as Hs%stream_over_unexpected by eauto.
    congruence.
  - apply stream_over_unexpected in Hover as [e He]. rewrite He.
    destruct r as [| | e']; simpl in *; try done.
    case_decide; by simplify_eq.
Qed.

(** X2: Listen, on a stream that yields something, with [ready] still open and
    room in [errs]: it returns with [ready] closed and the parent gone; it
    has pushed one error on [errs] exactly when the stream ended
    unexpectedly, and has touched nothing else. *)
Theorem Listen_returns (relay : Relay) (t : T) (ready : chan ()) r rs s :
  ch_closed ready = false →
  ch_closed (errs s) = false →
  length (ch_buf (errs s)) < ch_cap (errs s) →
  ∃ s', Listen relay t ready (r :: rs) s
        = Ret (s', mkChan (ch_cap ready) (ch_buf ready) true)
        ∧ parents s' = parents_delete (GetDistantAddress relay) (parents s)
        ∧ ch_buf (errs s')
          = ch_buf (errs s)
            ++ match unexpected r with
               | Some e => ["stream closed unexpectedly: " +:+ e]
               | None => []
               end
        ∧ ch_closed (errs s') = false
        ∧ me s' = me s ∧ queue s' = queue s
        ∧ relays s' = relays s ∧ wg s' = wg s.
Proof.
  intros Hready Hopen Hroom. unfold Listen, chan_close. rewrite Hready.
  cbn [mbind outcome_bind]. rewrite Listen_loop_first.
  destruct (unexpected r) as [e |].
  - unfold chan_send. cbn [SetPassive set_parents errs]. rewrite Hopen.
    rewrite decide_True by done. cbn.
    eexists. split; [done |].
    cbn [parents me queue relays wg errs set_parents set_errs ch_buf ch_closed].
    split; [apply parents_delete_insert | done].
  - cbn [mbind outcome_bind]. eexists. split; [done |].
    cbn [parents me queue relays wg errs set_parents set_errs SetPassive].
    rewrite app_nil_r. split; [apply parents_delete_insert | done].
Qed.

(** X3: Listen on a session that has been closed: when the stream of the
    parent then ends unexpectedly, the send on the closed [errs] channel
    panics. *)
Theorem Listen_after_Close_panics (relay : Relay) (t : T) (ready : chan ())
    e rs s0 s :
  Close s0 = Ret s →
  ch_closed ready = false →
  statusCode e = "Unknown" →
  Listen relay t ready (StreamErr e :: rs) s = Panic "send on closed channel".
Proof.
  intros Hclose Hready Hcode.
  assert (Hc : ch_closed (errs s) = true).
  { unfold Close, chan_close in Hclose.
    destruct (ch_closed (errs s0)); [done |]. cbn in Hclose.
    case_decide; [| done]. by injection Hclose as <-. }
  unfold Listen, chan_close. rewrite Hready. cbn [mbind outcome_bind].
  rewrite Listen_loop_first. cbn [unexpected]. rewrite decide_True by done.
  unfold chan_send. cbn [SetPassive set_parents errs]. by rewrite Hc.
Qed.

(** X4: Listen with an unread error already in [errs]: a second unexpected end
    of a stream blocks on the full channel, and the parent stays
    registered. *)
Theorem Listen_full_errs_blocks (relay : Relay) (t : T) (ready : chan ()) e rs s :
  ch_closed ready = false →
  ch_closed (errs s) = false →
  ch_cap (errs s) ≤ length (ch_buf (errs s)) →
  statusCode e = "Unknown" →
  Listen relay t ready (StreamErr e :: rs) s = Blocked.
Proof.
  intros Hready Hopen Hfull Hcode.
  unfold Listen, chan_close. rewrite Hready. cbn [mbind outcome_bind].
  rewrite Listen_loop_first. cbn [unexpected]. rewrite decide_True by done.
  unfold chan_send. cbn [SetPassive set_parents errs]. rewrite Hopen.
  rewrite decide_False by lia. done.
Qed.

(** X5: The error that Listen pushes comes out of Recv with the prefix
    twice. *)
Theorem Listen_then_Recv (relay : Relay) (t : T) (ready : chan ()) e rs s ctx :
  ch_closed ready = false →
  errs s = make_chan 1 →
  statusCode e = "Unknown" →
  ∃ s1 ready1 s2,
    Listen relay t ready (StreamErr e :: rs) s = Ret (s1, ready1)
    ∧ Recv (Msg := Msg) ctx CaseErrs s1
      = Ret (s2, inr ("stream closed unexpectedly: "
                      +:+ ("stream closed unexpectedly: " +:+ e)))
    ∧ errs s2 = make_chan 1.
Proof.
  intros Hready Herrs Hcode.
  unfold Listen, chan_close. rewrite Hready. cbn [mbind outcome_bind].
  rewrite Listen_loop_first. cbn [unexpected]. rewrite decide_True by done.
  unfold chan_send. cbn [SetPassive set_parents errs]. rewrite Herrs. cbn.
  do 3 eexists. split; [done |]. split; reflexivity.
Qed.

(** X6: After Close, Recv reports the end of the stream, and goes on doing
    so. *)
Theorem Recv_after_Close s s1 ctx :
  Close s = Ret s1 →
  ch_buf (errs s) = [] →
  ∃ s2, Recv (Msg := Msg) ctx CaseErrs s1 = Ret (s2, inr "EOF")
        ∧ Recv (Msg := Msg) ctx CaseErrs s2 = Ret (s2, inr "EOF")
        ∧ errs s2 = errs s1 ∧ queue s2 = queue s1
        ∧ parents s2 = parents s1 ∧ relays s2 = relays s1.
Proof.
  intros Hclose Hbuf. unfold Close, chan_close in Hclose.
  destruct (ch_closed (errs s)) eqn:Hc; [done |]. cbn in Hclose.
  case_decide; [| done]. injection Hclose as <-.
  unfold Recv, chan_recv.
  cbn [errs set_errs ch_buf ch_closed ch_cap]. rewrite Hbuf.
  cbn [mbind outcome_bind ch_closed].
  eexists. split; [reflexivity |]. split_and!; reflexivity.
Qed.
End Listening.

Section Relaying.
Context {N Packet T Q Msg : Type}.
Context `{!Transport N, !Router Packet T, !Queue Q Packet, !Serde Msg}.
Implicit Types (s : session Q T) (st : sendst (N := N) (T := T) (Q := Q)).
Implicit Types (w : world N) (r : stream_result) (rs : list stream_result).

(** X7: A setupRelay that fails registers nothing and gives back what it took:
    the session, the table and the errors are as before, and when the
    connection had been acquired, releasing it is the last thing done. *)
Theorem setupRelay_failure addr st st' e :
  setupRelay addr st = (st', inr e) →
  st_sess st' = st_sess st ∧ st_table st' = st_table st ∧ st_errs st' = st_errs st
  ∧ ∃ evs, wire (st_world st') = wire (st_world st) ++ evs
           ∧ match PrepareHandshakeFor (st_table st) addr,
                   (Acquire (net (st_world st)) addr).2 with
             | inl _, inl _ =>
                 head evs = Some (EvAcquire addr) ∧ last evs = Some (EvRelease addr)
             | inl _, inr _ => evs = [EvAcquire addr]
             | inr _, _ => evs = []
             end.
Proof.
  unfold setupRelay, call_Acquire, call_Stream, call_Header, call_Release.
  destruct (relays (st_sess st) !! addr); [done |].
  destruct (PrepareHandshakeFor (st_table st) addr) as [hs | err].
  2: { intros [= <- <-]. split_and!; try done. exists []. by rewrite app_nil_r. }
  destruct (Acquire (net (st_world st)) addr) as [n1 [conn | err]]; cbn [snd net wire].
  2: { intros [= <- <-]. split_and!; try done. by exists [EvAcquire addr]. }
  destruct (clientStream n1 conn hs) as [n2 [stream | err]]; cbn [net wire].
  2: { intros [= <- <-]. split_and!; try done.
       exists [EvAcquire addr; EvStream conn hs; EvRelease addr].
       cbn. by rewrite <- !app_assoc. }
  destruct (streamHeader n2 stream) as [n3 [err |]]; cbn [net wire]; [| done].
  intros [= <- <-]. split_and!; try done.
  exists [EvAcquire addr; EvStream conn hs; EvHeader stream; EvRelease addr].
  cbn. by rewrite <- !app_assoc.
Qed.

(** X8: A setupRelay that succeeds for an address without relay registers a
    unicast relay to that address, counts it in the wait group, and
    releases nothing; asking again gives the same relay and does nothing:
    there is one relay per address. *)
Theorem setupRelay_success addr st st1 rl :
  relays (st_sess st) !! addr = None →
  setupRelay addr st = (st1, inl rl) →
  (∃ stream conn, rl = unicastRelay addr stream conn
     ∧ wire (st_world st1)
       = wire (st_world st)
         ++ [EvAcquire addr; EvStream conn (match PrepareHandshakeFor (st_table st) addr
                                            with inl hs => hs | inr _ => [] end);
             EvHeader stream])
  ∧ relays (st_sess st1) = <[addr := rl]> (relays (st_sess st))
  ∧ wg (st_sess st1) = S (wg (st_sess st))
  ∧ setupRelay addr st1 = (st1, inl rl).
Proof.
  intros Hnone. unfold setupRelay at 1.
  unfold call_Acquire, call_Stream, call_Header, call_Release. rewrite Hnone.
  destruct (PrepareHandshakeFor (st_table st) addr) as [hs | err]; [| done].
  destruct (Acquire (net (st_world st)) addr) as [n1 [conn | err]]; [| done].
  cbn [net wire].
  destruct (clientStream n1 conn hs) as [n2 [stream | err]]; [| done].
  cbn [net wire].
  destruct (streamHeader n2 stream) as [n3 [err |]]; [done |].
  intros [= <- <-]. split_and!.
  - exists stream, conn. split; [done |]. cbn. by rewrite <- !app_assoc.
  - done.
  - done.
  - unfold setupRelay. cbn [st_sess st_set_sess st_set_world relays set_relays set_wg].
    by rewrite lookup_insert_eq.
Qed.

Lemma drain_loop_first addr r rs (t : T) :
  drain_loop addr (r :: rs) t
  = Ret (match unexpected r with
         | Some _ => (OnFailure t addr).1
         | None => t
         end).
Proof.
  simpl. destruct (stream_over r) eqn:Hover.
  - destruct (unexpected r) eqn:Hu; [| done].
    assert (is_Some (unexpected r)) as Hs%stream_over_unexpected by eauto.
    congruence.
  - apply stream_over_unexpected in Hover as [e He]. rewrite He.
    destruct r as [| | e']; simpl in *; try done.
Qed.

(** X9: The life of a relay, from setupRelay to the end of its goroutine: when
    the stream of the relay ends, the session has the relays and the wait
    group count it had before the relay was set up, the last thing done is
    the release of the connection, after the half-close of a client
    stream, and the table has been told of a failure exactly when the
    stream ended unexpectedly. *)
Theorem relay_lifecycle addr st st1 rl r rs :
  relays (st_sess st) !! addr = None →
  setupRelay addr st = (st1, inl rl) →
  ∃ st2 evs,
    relay_drain addr rl (r :: rs) st1 = Ret st2
    ∧ relays (st_sess st2) = relays (st_sess st)
    ∧ wg (st_sess st2) = wg (st_sess st)
    ∧ st_table st2 = match unexpected r with
                     | Some _ => (OnFailure (st_table st) addr).1
                     | None => st_table st
                     end
    ∧ wire (st_world st2) = wire (st_world st1) ++ evs
    ∧ last evs = Some (EvRelease addr)
    ∧ evs = (if is_client (Stream rl) then [EvCloseSend (Stream rl)] else [])
            ++ [EvRelease addr].
Proof.
  intros Hnone Hsetup.
  assert (Htable : st_table st1 = st_table st).
  { revert Hsetup. unfold setupRelay. rewrite Hnone.
    repeat case_match; intros [= <- <-]; done. }
  destruct (setupRelay_success _ _ _ _ Hnone Hsetup)
    as ((stream & conn & -> & _) & Hrelays & Hwg & _).
  unfold relay_drain. rewrite drain_loop_first. cbn [mbind outcome_bind].
  rewrite decide_False by lia.
  unfold relay_exit, Relay_Close, unicastRelay_Close, call_CloseSend, call_Release.
  cbn [Stream].
  destruct (is_client stream).
  - destruct (CloseSend (net (st_world st1)) stream) as [n1 e1].
    destruct e1 as [e1 |]; cbn [wire net fst snd];
      (eexists _, [EvCloseSend stream; EvRelease addr]; split; [reflexivity |];
       cbn [st_sess st_table st_world relays wg set_relays set_wg wire];
       rewrite Hrelays, Hwg, Htable, delete_insert_id by done;
       split_and!; try done; by rewrite <- app_assoc).
  - eexists _, [EvRelease addr]. split; [reflexivity |].
    cbn [st_sess st_table st_world relays wg set_relays set_wg wire].
    rewrite Hrelays, Hwg, Htable, delete_insert_id by done.
    split_and!; done.
Qed.
End Relaying.

Section Invariants.
Context {N Packet T Q Msg : Type}.
Context `{!Transport N, !Router Packet T, !Queue Q Packet, !Serde Msg}.
Implicit Types (s : session Q T) (st : sendst (N := N) (T := T) (Q := Q)).
Implicit Types (w : world N) (pkt : Packet) (prelay : Relay).

(** A property of sessions that survives the two things the send path
    does to a session: queueing a packet and registering a new relay. *)
Variable P : session Q T → Prop.
Hypothesis P_queue : ∀ s q, P s → P (set_queue s q).
Hypothesis P_relay : ∀ s addr stream conn,
  P s → relays s !! addr = None →
  P (set_wg (set_relays s (<[addr := NewRelay stream addr conn]> (relays s)))
            (S (wg s))).

Lemma setupRelay_keeps addr st : P (st_sess st) → P (st_sess (setupRelay addr st).1).
Proof.
  intros HP. unfold setupRelay.
  destruct (relays (st_sess st) !! addr) eqn:Hl; [done |].
  repeat case_match; simpl; try done. by apply P_relay.
Qed.

Lemma local_part_keeps pkt st : P (st_sess st) → P (st_sess (local_part pkt st)).
Proof.
  intros HP. unfold local_part.
  destruct (Slice pkt (me (st_sess st))).1; [| done].
  destruct (QPush _ _) as [q [e |]]; simpl; by apply P_queue.
Qed.

Lemma foldl_push_sess (voids : list (Address * error)) st :
  st_sess (foldl (λ st v, st_push st ("no route to " +:+ addr_String v.1 +:+ ": " +:+ v.2))
                 st voids) = st_sess st.
Proof. revert st. induction voids as [| v voids IH]; intros st; simpl; [done |]. by rewrite IH. Qed.

Lemma onFailure_keeps retry prelay gw pkt st st' :
  retry_keeps P retry → P (st_sess st) →
  onFailure_ retry prelay gw pkt st = Ret st' → P (st_sess st').
Proof.
  intros Hretry HP. unfold onFailure_.
  destruct (OnFailure (st_table st) gw) as [t' [e |]].
  - by intros [= <-].
  - destruct (retry prelay pkt (st_set_table st t')) as [[[st1 p1] b1] | | |] eqn:Hr;
      simpl; try done.
    intros [= <-]. by apply (Hretry prelay pkt (st_set_table st t') _ HP Hr).
Qed.

Lemma sendTo_keeps retry prelay to pkt st st' :
  retry_keeps P retry → P (st_sess st) →
  sendTo_ retry prelay to pkt st = Ret st' → P (st_sess st').
Proof.
  intros Hretry HP. unfold sendTo_. destruct to as [to |].
  - pose proof (setupRelay_keeps to st HP) as HP1.
    destruct (setupRelay to st) as [st1 [rl | err]]; simpl in HP1.
    + destruct (Relay_Send rl (st_world st1) pkt) as [w1 [ack | err]].
      * by intros [= <-].
      * by apply onFailure_keeps.
    + by apply onFailure_keeps.
  - destruct (Relay_Send prelay (st_world st) pkt) as [w1 [ack | err]];
      by intros [= <-].
Qed.

Lemma sendTo_all_keeps retry prelay routes st st' :
  retry_keeps P retry → P (st_sess st) →
  sendTo_all retry prelay routes st = Ret st' → P (st_sess st').
Proof.
  intros Hretry. revert st.
  induction routes as [| [addr packet] routes IH]; intros st HP; simpl.
  { by intros [= <-]. }
  destruct (sendTo_ retry prelay addr packet st) as [st1 | | |] eqn:H1; simpl; try done.
  apply IH. by eapply sendTo_keeps.
Qed.

Lemma sendPacket__keeps retry : retry_keeps P retry → retry_keeps P (sendPacket_ retry).
Proof.
  intros Hretry prelay pkt st r HP. rewrite sendPacket__eq. cbv zeta.
  destruct (Forward (st_table st) (Slice pkt (me (st_sess st))).2)
    as [[t' routes] voids].
  cbv beta iota.
  match goal with |- context [foldl ?f ?a voids] => set (st1 := foldl f a voids) end.
  assert (HP1 : P (st_sess st1)).
  { unfold st1. rewrite foldl_push_sess. simpl. by apply local_part_keeps. }
  assert (Hgo : (st' ← sendTo_all retry prelay routes st1;
                 Ret (st', (Slice pkt (me (st_sess st))).2, true)) = Ret r →
                P (st_sess r.1.1)).
  { destruct (sendTo_all retry prelay routes st1) as [st2 | | |] eqn:H2; simpl; try done.
    intros [= <-]. simpl. by eapply sendTo_all_keeps. }
  destruct routes as [| x routes], voids as [| v voids]; try exact Hgo.
  clear Hgo. intros Hr. injection Hr as <-. exact HP1.
Qed.

Lemma sendPacket_keeps fuel : retry_keeps P (sendPacket fuel).
Proof.
  induction fuel as [| fuel IH]; intros prelay pkt st r HP;
    rewrite sendPacket_unfold; apply sendPacket__keeps; done.
Qed.
End Invariants.

Section Kept.
Context {N Packet T Q Msg : Type}.
Context `{!Transport N, !Router Packet T, !Queue Q Packet, !Serde Msg}.
Implicit Types (s : session Q T) (st : sendst (N := N) (T := T) (Q := Q)).
Implicit Types (w : world N) (pkt : Packet) (prelay : Relay).

Lemma relays_unicast_insert s addr stream conn :
  relays_unicast s →
  relays_unicast
    (set_wg (set_relays s (<[addr := NewRelay stream addr conn]> (relays s))) (S (wg s))).
Proof.
  intros Hall a rl. simpl. destruct (decide (a = addr)) as [-> | Hne].
  - rewrite lookup_insert_eq. intros [= <-]. by exists stream, conn.
  - rewrite lookup_insert_ne by done. apply Hall.
Qed.

(** X10: whatever relays sendPacket sets up along the way, retries included,
    it registers each as a unicast relay under the address of its own peer:
    if every relay of the session is one before the call, every relay is
    one after it. *)
Theorem sendPacket_relays_unicast fuel prelay pkt st st' pkt' b :
  relays_unicast (st_sess st) →
  sendPacket fuel prelay pkt st = Ret (st', pkt', b) →
  relays_unicast (st_sess st').
Proof.
  intros Hinv Hsend.
  apply (sendPacket_keeps relays_unicast) with (fuel := fuel) (prelay := prelay)
    (pkt := pkt) (st := st) (r := (st', pkt', b)); try done.
  intros s addr stream conn Hall _. by apply relays_unicast_insert.
Qed.

(** X11: sendPacket leaves the identity of the session alone, whatever it
    queues and whatever relays it sets up: the address of the session, its
    [errs] channel and its parents are as before. *)
Theorem sendPacket_frame fuel prelay pkt st st' pkt' b :
  sendPacket fuel prelay pkt st = Ret (st', pkt', b) →
  me (st_sess st') = me (st_sess st)
  ∧ errs (st_sess st') = errs (st_sess st)
  ∧ parents (st_sess st') = parents (st_sess st).
Proof.
  intros Hsend.
  apply (sendPacket_keeps
           (λ s, me s = me (st_sess st) ∧ errs s = errs (st_sess st)
                 ∧ parents s = parents (st_sess st)))
    with (fuel := fuel) (prelay := prelay) (pkt := pkt) (st := st)
         (r := (st', pkt', b)); done.
Qed.
End Kept.

Section SendKept.
Context {N Packet T Q Msg : Type}.
Context `{!Transport N, !Router Packet T, !Queue Q Packet, !Serde Msg}.
Implicit Types (s : session Q T) (st : sendst (N := N) (T := T) (Q := Q)).
Implicit Types (w : world N) (pkt : Packet) (prelay : Relay).

Lemma Send_parents_keeps (P : session Q T → Prop) fuel data addrs
    (ps : list (Address * parent T)) s w log l b :
  (∀ s q, P s → P (set_queue s q)) →
  (∀ s addr stream conn, P s → relays s !! addr = None →
     P (set_wg (set_relays s (<[addr := NewRelay stream addr conn]> (relays s)))
               (S (wg s)))) →
  P s →
  Send_parents fuel data addrs ps s w log = Ret (l, b) →
  P (lp_sess l)
  ∧ (λ e, (e.1, relay e.2)) <$> lp_parents l = (λ e, (e.1, relay e.2)) <$> ps.
Proof.
  intros Pq Pr. revert s w log l b.
  induction ps as [| [a p] ps IH]; intros s w log l b HP; simpl.
  { by intros [= <- <-]. }
  destruct (sendPacket fuel (relay p) (Make (table p) (me s) addrs data)
              (mkSt s (table p) w log)) as [[[st pkt'] acc] | | |] eqn:Hsp;
    simpl; try done.
  pose proof (sendPacket_keeps P Pq Pr fuel (relay p) _ (mkSt s (table p) w log) _ HP Hsp)
    as HP1. simpl in HP1.
  destruct acc.
  - intros [= <- <-]. done.
  - destruct (Send_parents fuel data addrs ps (st_sess st) (st_world st) (st_errs st))
      as [[l' b'] | | |] eqn:Hrest; simpl; try done.
    intros [= <- <-]. destruct (IH _ _ _ _ _ HP1 Hrest) as [HP2 Hkeys].
    split; [done |]. cbn [lp_cons lp_parents]. rewrite !fmap_cons. by rewrite Hkeys.
Qed.

(** X12: Send leaves the session itself alone.  When its goroutine ends, the
    session has the address and the [errs] channel that it had, and the
    same parents by address and relay, only their tables may have moved;
    and if every relay was a unicast relay registered under the address of
    its peer, every relay still is. *)
Theorem Send_frame fuel (msg : Msg) l (h : gmap nat (list Address)) s w snt :
  (Send fuel msg l h s w).2 = Ret snt →
  me (snt_sess snt) = me s
  ∧ errs (snt_sess snt) = errs s
  ∧ (λ e, (e.1, relay e.2)) <$> parents (snt_sess snt)
    = (λ e, (e.1, relay e.2)) <$> parents s
  ∧ (relays_unicast s → relays_unicast (snt_sess snt)).
Proof.
  unfold Send, Send_routine. cbn [snd].
  destruct (Serialize msg) as [data | err].
  2: { cbn. intros [= <-]. done. }
  destruct (Send_parents fuel data _ (parents s) s w []) as [[lp acc] | | |] eqn:Hloop;
    cbn [mbind outcome_bind]; try done.
  assert (Hres : snt_sess snt = set_parents (lp_sess lp) (lp_parents lp) →
    me (snt_sess snt) = me s
    ∧ errs (snt_sess snt) = errs s
    ∧ (λ e, (e.1, relay e.2)) <$> parents (snt_sess snt)
      = (λ e, (e.1, relay e.2)) <$> parents s
    ∧ (relays_unicast s → relays_unicast (snt_sess snt))).
  { intros ->. cbn [me errs parents relays set_parents].
    destruct (Send_parents_keeps
                (λ s', me s' = me s ∧ errs s' = errs s)
                fuel data (unwrap_addrs (default [] (h !! l))) (parents s) s w [] lp acc)
      as [(Hme & Herrs) Hkeys]; try done.
    split_and!; try done.
    intros Hall.
    destruct (Send_parents_keeps relays_unicast
                fuel data (unwrap_addrs (default [] (h !! l))) (parents s) s w [] lp acc)
      as [Hall' _]; try done.
    intros s' addr stream conn Hs' _. by apply relays_unicast_insert. }
  destruct acc; cbn; intros [= <-]; by apply Hres.
Qed.
End SendKept.

Section Paths.
Context {N Packet T Q Msg : Type}.
Context `{!Transport N, !Router Packet T, !Queue Q Packet, !Serde Msg}.
Implicit Types (s : session Q T) (st : sendst (N := N) (T := T) (Q := Q)).
Implicit Types (w : world N) (pkt : Packet) (prelay : Relay).

Lemma foldl_push_voids (voids : list (Address * error)) st :
  foldl (λ st v, st_push st ("no route to " +:+ addr_String v.1 +:+ ": " +:+ v.2))
        st voids
  = st_push_all st
      (map (λ v, "no route to " +:+ addr_String v.1 +:+ ": " +:+ v.2) voids).
Proof.
  revert st. induction voids as [| v voids IH]; intros st; simpl.
  - unfold st_push_all. rewrite app_nil_r. by destruct st.
  - rewrite IH. unfold st_push_all, st_push. simpl. by rewrite <- app_assoc.
Qed.

(** X13: When the table has no route and voids some destinations, sendPacket
    accepts the packet, reports one error for each voided destination, in
    the order of the table, after the error of the local delivery if any,
    and contacts nobody. *)
Theorem sendPacket_voids_only fuel prelay pkt st t' v voids :
  Forward (st_table st) (Slice pkt (me (st_sess st))).2 = (t', [], v :: voids) →
  ∃ st', sendPacket fuel prelay pkt st = Ret (st', (Slice pkt (me (st_sess st))).2, true)
         ∧ st_errs st'
           = st_errs (local_part pkt st)
             ++ map (λ v, "no route to " +:+ addr_String v.1 +:+ ": " +:+ v.2)
                    (v :: voids)
         ∧ st_world st' = st_world st
         ∧ relays (st_sess st') = relays (st_sess st)
         ∧ wg (st_sess st') = wg (st_sess st)
         ∧ st_table st' = t'.
Proof.
  intros Hfwd. rewrite sendPacket_unfold, sendPacket__eq. cbv zeta.
  rewrite Hfwd. cbv beta iota. rewrite foldl_push_voids.
  cbn [sendTo_all mbind outcome_bind].
  eexists. split; [done |].
  cbn [st_errs st_world st_sess st_table st_push_all st_set_table].
  unfold local_part.
  destruct (Slice pkt (me (st_sess st))).1; [| done].
  destruct (QPush _ _) as [q [e |]]; done.
Qed.

(** Handing a packet to the parent needs no budget and repairs nothing:
    the call returns whatever the budget, leaves the session and the table
    alone, and pushes the errors of the acknowledgement, or the one error
    that the session is closing when the relay of the parent fails. *)
Theorem sendTo_parent fuel prelay pkt st :
  ∃ st', sendTo fuel prelay None pkt st = Ret st'
         ∧ st_sess st' = st_sess st
         ∧ st_table st' = st_table st
         ∧ st_world st' = (Relay_Send prelay (st_world st) pkt).1
         ∧ st_errs st'
           = st_errs st
             ++ match (Relay_Send prelay (st_world st) pkt).2 with
                | inl ack => Errors ack
                | inr err => ["session " +:+ addr_String (me (st_sess st))
                              +:+ " is closing: " +:+ statusCode err]
                end.
Proof.
  unfold sendTo, sendTo_.
  destruct (Relay_Send prelay (st_world st) pkt) as [w1 [ack | err]];
    eexists; split; done.
Qed.

(** X14: Send stops at the first parent that accepts.  When the parents before
    it refuse the packet made from their table, the errors on the channel
    are those of the accepting call alone, the world is as that call left
    it, and the parents after it are as they were: they have not been
    tried. *)
Theorem Send_parents_first_accepting fuel data addrs
    (before after : list (Address * parent T)) a (p : parent T) s w log st1 pkt1 :
  (∀ b q, (b, q) ∈ before →
     ∃ st pkt', sendPacket fuel (relay q) (Make (table q) (me s) addrs data)
                  (mkSt s (table q) w log) = Ret (st, pkt', false)) →
  sendPacket fuel (relay p) (Make (table p) (me s) addrs data) (mkSt s (table p) w log)
  = Ret (st1, pkt1, true) →
  ∃ before',
    Send_parents fuel data addrs (before ++ (a, p) :: after) s w log
    = Ret (mkLoop (before' ++ (a, mkParent (relay p) (st_table st1)) :: after)
                  (st_sess st1) (st_world st1) (st_errs st1), true)
    ∧ before'.*1 = before.*1.
Proof.
  intros Hbefore Hacc.
  induction before as [| [b q] before IH]; simpl.
  { exists []. rewrite Hacc. done. }
  destruct (Hbefore b q) as (st & pkt' & Hsp); [left |].
  rewrite Hsp. cbn [mbind outcome_bind].
  apply sendPacket_false in Hsp as (He & Hs & Hw). simpl in He, Hs, Hw.
  rewrite He, Hs, Hw.
  destruct IH as (before' & -> & Hkeys).
  { intros b' q' Hin. apply (Hbefore b' q'). by right. }
  cbn. exists ((b, mkParent (relay q) (st_table st)) :: before').
  split; [done |]. rewrite !fmap_cons. by rewrite Hkeys.
Qed.
End Paths.

Section Reporting.
Context {N Packet T Q Msg : Type}.
Context `{!Transport N, !Router Packet T, !Queue Q Packet, !Serde Msg}.
Implicit Types (s : session Q T) (st : sendst (N := N) (T := T) (Q := Q)).
Implicit Types (w : world N) (pkt : Packet) (prelay : Relay).

Lemma setupRelay_errs addr st : st_errs (setupRelay addr st).1 = st_errs st.
Proof. unfold setupRelay. by repeat case_match. Qed.

Lemma local_part_errs pkt st :
  st_errs (local_part pkt st) = st_errs st ++ local_errs pkt st.
Proof.
  unfold local_part, local_errs.
  destruct (Slice pkt (me (st_sess st))).1; [| by rewrite app_nil_r].
  destruct (QPush _ _) as [q [e |]]; simpl; [done | by rewrite app_nil_r].
Qed.

Lemma onFailure_reports retry prelay gw pkt st st' :
  retry_reports retry →
  onFailure_ retry prelay gw pkt st = Ret st' →
  ∃ es, repair_reports prelay gw pkt st es st' ∧ st_errs st' = st_errs st ++ es.
Proof.
  intros Hretry. unfold onFailure_.
  destruct (OnFailure (st_table st) gw) as [t' [e |]] eqn:Hf.
  - intros [= <-]. eexists. split; [by eapply repair_no_route | done].
  - destruct (retry prelay pkt (st_set_table st t')) as [[[st1 p1] b1] | | |] eqn:Hr;
      simpl; try done.
    intros [= <-]. destruct (Hretry _ _ _ _ _ _ Hr) as (es & Hrep & Hes).
    exists es. split; [by eapply repair_retried | done].
Qed.

Lemma sendTo_reports retry prelay to pkt st st' :
  retry_reports retry →
  sendTo_ retry prelay to pkt st = Ret st' →
  ∃ es, leg_reports prelay to pkt st es st' ∧ st_errs st' = st_errs st ++ es.
Proof.
  intros Hretry. unfold sendTo_. destruct to as [to |].
  - pose proof (setupRelay_errs to st) as Herrs.
    destruct (setupRelay to st) as [st1 [rl | err]] eqn:Hsetup; simpl in Herrs.
    + destruct (Relay_Send rl (st_world st1) pkt) as [w1 [ack | err]] eqn:Hsend.
      * intros [= <-]. eexists. split; [by eapply leg_child_delivered |].
        simpl. by rewrite Herrs.
      * intros Hf. destruct (onFailure_reports _ _ _ _ _ _ Hretry Hf) as (es & Hrep & Hes).
        exists es. split; [by eapply leg_send_failed |].
        rewrite Hes. simpl. by rewrite Herrs.
    + intros Hf. destruct (onFailure_reports _ _ _ _ _ _ Hretry Hf) as (es & Hrep & Hes).
      exists es. split; [by eapply leg_setup_failed |]. by rewrite Hes, Herrs.
  - destruct (Relay_Send prelay (st_world st) pkt) as [w1 [ack | err]] eqn:Hsend;
      intros [= <-]; eexists; (split; [by econstructor | done]).
Qed.

Lemma sendTo_all_reports retry prelay routes st st' :
  retry_reports retry →
  sendTo_all retry prelay routes st = Ret st' →
  ∃ es, legs_report prelay routes st es st' ∧ st_errs st' = st_errs st ++ es.
Proof.
  intros Hretry. revert st.
  induction routes as [| [addr packet] routes IH]; intros st; simpl.
  { intros [= <-]. exists []. split; [constructor | by rewrite app_nil_r]. }
  destruct (sendTo_ retry prelay addr packet st) as [st1 | | |] eqn:H1; simpl; try done.
  intros H2. destruct (sendTo_reports _ _ _ _ _ _ Hretry H1) as (es1 & Hr1 & He1).
  destruct (IH _ H2) as (es2 & Hr2 & He2).
  exists (es1 ++ es2). split; [by eapply legs_next |].
  by rewrite He2, He1, app_assoc.
Qed.

Lemma sendPacket__reports retry : retry_reports retry → retry_reports (sendPacket_ retry).
Proof.
  intros Hretry prelay pkt st st' pkt' b. rewrite sendPacket__eq. cbv zeta.
  destruct (Forward (st_table st) (Slice pkt (me (st_sess st))).2)
    as [[t' routes] voids] eqn:Hfw.
  cbv beta iota. rewrite foldl_push_voids. fold (void_errs voids).
  set (st1 := st_push_all (st_set_table (local_part pkt st) t') (void_errs voids)).
  assert (He1 : st_errs st1 = st_errs st ++ local_errs pkt st ++ void_errs voids).
  { unfold st1. simpl. by rewrite local_part_errs, app_assoc. }
  assert (Hgo : (st2 ← sendTo_all retry prelay routes st1;
                 Ret (st2, (Slice pkt (me (st_sess st))).2, true)) = Ret (st', pkt', b) →
                ∃ es, legs_report prelay routes st1 es st'
                      ∧ st_errs st' = st_errs st1 ++ es
                      ∧ pkt' = (Slice pkt (me (st_sess st))).2 ∧ b = true).
  { destruct (sendTo_all retry prelay routes st1) as [st2 | | |] eqn:H2; simpl; try done.
    intros [= <- <- <-]. destruct (sendTo_all_reports _ _ _ _ _ Hretry H2) as (es & ? & ?).
    by exists es. }
  assert (Hfin : (∃ es, legs_report prelay routes st1 es st'
                      ∧ st_errs st' = st_errs st1 ++ es
                      ∧ pkt' = (Slice pkt (me (st_sess st))).2
                      ∧ b = match routes, voids with
                            | [], [] => bool_decide (is_Some (Slice pkt (me (st_sess st))).1)
                            | _, _ => true
                            end) →
    ∃ es, packet_reports prelay pkt st es st' pkt' b ∧ st_errs st' = st_errs st ++ es).
  { intros (es & Hlegs & Hes & -> & ->).
    exists (local_errs pkt st ++ void_errs voids ++ es). split.
    - by eapply packet_legs.
    - by rewrite Hes, He1, <- !app_assoc. }
  destruct routes as [| x routes], voids as [| v voids];
    try (intros Hr; apply Hfin; destruct (Hgo Hr) as (es & ? & ? & ? & ?); by exists es).
  intros [= <- <- <-]. apply Hfin. exists []. split_and!; try done.
  - constructor.
  - by rewrite app_nil_r.
Qed.

Lemma sendPacket_reports fuel : retry_reports (sendPacket fuel).
Proof.
  induction fuel as [| fuel IH]; intros prelay pkt st st' pkt' b;
    rewrite sendPacket_unfold; apply sendPacket__reports; [done | exact IH].
Qed.

Lemma Send_parents_reports fuel data addrs (ps : list (Address * parent T)) s w log l b :
  Send_parents fuel data addrs ps s w log = Ret (l, b) →
  ∃ es, parents_report data addrs ps s w log es b ∧ lp_errs l = log ++ es.
Proof.
  revert s w log l b. induction ps as [| [a p] ps IH]; intros s w log l b; simpl.
  { intros [= <- <-]. exists []. split; [constructor | by rewrite app_nil_r]. }
  destruct (sendPacket fuel (relay p) (Make (table p) (me s) addrs data)
              (mkSt s (table p) w log)) as [[[st pkt'] acc] | | |] eqn:Hsp;
    simpl; try done.
  destruct (sendPacket_reports _ _ _ _ _ _ _ Hsp) as (es1 & Hr1 & He1). simpl in He1.
  destruct acc.
  - intros [= <- <-]. exists es1. split; [by eapply parents_accept | done].
  - destruct (Send_parents fuel data addrs ps (st_sess st) (st_world st) (st_errs st))
      as [[l' b'] | | |] eqn:Hrest; simpl; try done.
    intros [= <- <-]. destruct (IH _ _ _ _ _ Hrest) as (es2 & Hr2 & He2).
    exists (es1 ++ es2). split; [by eapply parents_refuse |].
    simpl. by rewrite He2, He1, app_assoc.
Qed.

Lemma Send_routine_reports fuel (msg : Msg) addrs s w snt :
  Send_routine fuel msg addrs s w = Ret snt →
  ∃ log, send_reports msg addrs s w log ∧ snt_events snt = map Push log ++ [CloseCh].
Proof.
  unfold Send_routine. destruct (Serialize msg) as [data | err] eqn:Hser.
  - destruct (Send_parents fuel data addrs (parents s) s w []) as [[lp acc] | | |] eqn:Hl;
      cbn [mbind outcome_bind]; try done.
    destruct (Send_parents_reports _ _ _ _ _ _ _ _ _ Hl) as (es & Hrep & Hes).
    simpl in Hes. destruct acc; cbn; intros [= <-]; simpl; rewrite Hes.
    + exists es. split; [by eapply send_accepted | done].
    + exists (es ++ ["packet ignored"]). split; [by eapply send_ignored | done].
  - cbn. intros [= <-]. eexists. split; [by eapply send_unserializable | done].
Qed.

End Reporting.

(** *** The properties on the test doubles *)

Lemma fake_converges : converges (Packet := Fake.Packet) Fake.repairs.
Proof.
  split.
  - intros [| [| g rest] |] a t'; simpl; try done.
    case_decide; [| done]. intros [= <-]. simpl. lia.
  - intros [| [| g rest] |] a t' e; simpl; try (by intros [= <-]).
    case_decide; [done |]. by intros [= <-].
  - intros t p t' r v. simpl. unfold Fake.forward.
    destruct (Fake.dest p); [by intros [= <-] |].
    destruct t as [| [| g rest] |]; by intros [= <-].
Qed.

Lemma sendPacket_local_only_witness :
  ∃ st', sendPacket 0 (NewStreamRelay (Addr "O") (mkStream 1 false))
           (Fake.mkPacket (Addr "O") [Fake.A] [])
           (mkSt (Fake.with_parent Fake.Flat) Fake.Flat Fake.quiet [])
         = Ret (st', Fake.mkPacket (Addr "O") [] [], true).
Proof.
  exact (sendPacket_local_only 0 (NewStreamRelay (Addr "O") (mkStream 1 false))
           (Fake.mkPacket (Addr "O") [Fake.A] [])
           (mkSt (Fake.with_parent Fake.Flat) Fake.Flat Fake.quiet []) Fake.Flat
           eq_refl).
Defined.



Lemma Send_packet_ignored_witness :
  (∃ snt, (Send 0 (Some []) 0 Fake.one_slice Fake.fresh Fake.quiet).2 = Ret snt
          ∧ snt_events snt = [Push "packet ignored"; CloseCh])
  ∧ ∀ reads, yields_one "packet ignored"
               (Send_observe reads (Send 0 (Some []) 0 Fake.one_slice Fake.fresh Fake.quiet)).
Proof.
  apply (Send_packet_ignored 0 (Some []) 0 Fake.one_slice Fake.fresh Fake.quiet []
           (mkLoop [] Fake.fresh Fake.quiet [])); reflexivity.
Defined.

Lemma Send_serialize_failure_witness :
  (Send 3 None 0 Fake.one_slice (Fake.with_parent Fake.Flat) Fake.B_dead).2
  = Ret (mkSent (Fake.with_parent Fake.Flat) Fake.B_dead
           [Push "failed to serialize msg: oops"; CloseCh])
  ∧ ∀ reads, yields_one "failed to serialize msg: oops"
               (Send_observe reads
                  (Send 3 None 0 Fake.one_slice (Fake.with_parent Fake.Flat) Fake.B_dead)).
Proof.
  apply (Send_serialize_failure 3 None 0 Fake.one_slice (Fake.with_parent Fake.Flat)
           Fake.B_dead "oops").
  reflexivity.
Defined.

Lemma Send_unwraps_in_place_witness :
  (Send (Msg := option bytes) 3 (Some []) 0 Fake.one_slice (Fake.with_parent Fake.Flat) Fake.quiet).1.1 !! 0
  = Some [Fake.B; Fake.C].
Proof.
  apply (Send_unwraps_in_place 3 (Some []) 0 Fake.one_slice (Fake.with_parent Fake.Flat)
           Fake.quiet [newWrapAddress Fake.B; Fake.C]).
  reflexivity.
Defined.

Lemma RecvPacket_ack_witness :
  ∃ s' w', RecvPacket 2 Fake.B [] (Fake.with_parent Fake.Flat) Fake.grumpy
           = Ret (s', w', inl (mkAck ["e1"])).
Proof.
  destruct (RecvPacket_ack 2 Fake.B [] (Fake.with_parent Fake.Flat) Fake.grumpy
              (Fake.mkPacket (Addr "O") [Fake.A; Fake.B] [])) as [Haccept _];
    [reflexivity |].
  edestruct (Haccept [] (Addr "O")
               (mkParent (NewStreamRelay (Addr "O") (mkStream 1 false)) Fake.Flat) [])
    as [Hfit _]; [reflexivity | apply rejects_nil | reflexivity |].
  do 2 eexists. apply Hfit. simpl. lia.
Defined.

(** More errors than destinations: the turn of [RecvPacket] blocks. *)
Example RecvPacket_overflow :
  RecvPacket 2 Fake.B [] (Fake.with_parent Fake.Flat) Fake.chatty = Blocked.
Proof. reflexivity. Qed.

(** Scenario S1: everybody is reachable; the channel closes with no
    error. *)
Example Send_flat_all_reachable :
  ∃ snt, (Send 1 (Some []) 0 Fake.one_slice (Fake.with_parent Fake.Flat) Fake.quiet).2
         = Ret snt
         ∧ snt_events snt = [CloseCh]
         ∧ wire (snt_world snt)
           = [EvAcquire Fake.B; EvStream 1 []; EvHeader Fake.client_stream;
              EvForward 1 [];
              EvAcquire Fake.C; EvStream 1 []; EvHeader Fake.client_stream;
              EvForward 1 []].
Proof. eexists. split_and!; reflexivity. Qed.

(** Scenario S2: [B] cannot be dialled and the flat table cannot repair;
    one error, about [B], then the close. *)
Example Send_flat_dead_peer :
  ∃ snt, (Send 1 (Some []) 0 Fake.one_slice (Fake.with_parent Fake.Flat) Fake.B_dead).2
         = Ret snt
         ∧ snt_events snt = [Push "no route to B: no alternative"; CloseCh].
Proof. eexists. split; reflexivity. Qed.

(** Scenario S3: the gateway [B] is dead, the table falls back on [C]; the
    retry of [onFailure] delivers and no error is reported. *)
Example Send_reroutes :
  ∃ snt, (Send 1 (Some []) 0 Fake.one_slice
            (Fake.with_parent (Fake.Via [Fake.B; Fake.C])) Fake.B_dead).2 = Ret snt
         ∧ snt_events snt = [CloseCh]
         ∧ (λ e, table e.2) <$> parents (snt_sess snt) !! 0 = Some (Fake.Via [Fake.C]).
Proof. eexists. split_and!; reflexivity. Qed.

(** Without budget for the retry, the model gives up. *)
Example Send_reroutes_needs_fuel :
  (Send 0 (Some []) 0 Fake.one_slice
     (Fake.with_parent (Fake.Via [Fake.B; Fake.C])) Fake.B_dead).2 = OutOfFuel.
Proof. reflexivity. Qed.

(** *** More of the session, on the test doubles *)

Lemma SetPassive_registers_witness :
  NoDup (parents (SetPassive Fake.parent_relay Fake.Up (Fake.with_parent Fake.Flat))).*1
  ∧ GetNumParents (SetPassive Fake.parent_relay Fake.Up (Fake.with_parent Fake.Flat)) = 1.
Proof.
  destruct (SetPassive_registers (Q := list Fake.Packet) Fake.parent_relay Fake.Up
              (Fake.with_parent Fake.Flat)) as (Hnd & Hnum & _).
  { vm_compute. apply NoDup_singleton. }
  split; [exact Hnd |]. rewrite Hnum. reflexivity.
Defined.

Lemma Listen_returns_witness :
  ∃ s', Listen (Transport0 := Fake.raw_transport) Fake.parent_relay Fake.Flat (make_chan 0)
          [StreamErr "reset"; StreamEOF] Fake.fresh
        = Ret (s', mkChan 0 [] true)
        ∧ parents s' = []
        ∧ ch_buf (errs s') = ["stream closed unexpectedly: reset"].
Proof.
  destruct (Listen_returns (Transport0 := Fake.raw_transport) Fake.parent_relay Fake.Flat
              (make_chan 0) (StreamErr "reset") [StreamEOF] Fake.fresh)
    as (s' & Hl & Hp & Hb & _); [reflexivity | reflexivity | simpl; lia |].
  exists s'. split; [exact Hl |]. split; [exact Hp | exact Hb].
Defined.

Lemma Listen_after_Close_panics_witness :
  Listen (Transport0 := Fake.raw_transport) Fake.parent_relay Fake.Flat (make_chan 0)
    [StreamErr "reset"] Fake.closed_once
  = Panic "send on closed channel".
Proof.
  apply (Listen_after_Close_panics (Transport0 := Fake.raw_transport) Fake.parent_relay
           Fake.Flat (make_chan 0) "reset" [] Fake.fresh Fake.closed_once);
    reflexivity.
Defined.

Lemma Listen_full_errs_blocks_witness :
  Listen (Transport0 := Fake.raw_transport) Fake.parent_relay Fake.Flat (make_chan 0)
    [StreamErr "reset"] (set_errs Fake.fresh (mkChan 1 ["earlier"] false))
  = Blocked.
Proof.
  apply (Listen_full_errs_blocks (Transport0 := Fake.raw_transport) Fake.parent_relay
           Fake.Flat (make_chan 0) "reset" []
           (set_errs Fake.fresh (mkChan 1 ["earlier"] false)));
    [reflexivity | reflexivity | simpl; lia | reflexivity].
Defined.

Lemma Listen_then_Recv_witness :
  ∃ s1 ready1 s2,
    Listen (Transport0 := Fake.raw_transport) Fake.parent_relay Fake.Flat (make_chan 0)
      [StreamErr "reset"] Fake.fresh = Ret (s1, ready1)
    ∧ Recv (Msg := option bytes) None CaseErrs s1
      = Ret (s2, inr "stream closed unexpectedly: stream closed unexpectedly: reset")
    ∧ errs s2 = make_chan 1.
Proof.
  apply (Listen_then_Recv (Transport0 := Fake.raw_transport) (Msg := option bytes)
           Fake.parent_relay Fake.Flat (make_chan 0) "reset" [] Fake.fresh None);
    reflexivity.
Defined.

Lemma Recv_after_Close_witness :
  ∃ s2, Recv (Msg := option bytes) None CaseErrs Fake.closed_once = Ret (s2, inr "EOF")
        ∧ Recv (Msg := option bytes) None CaseErrs s2 = Ret (s2, inr "EOF")
        ∧ errs s2 = errs Fake.closed_once ∧ queue s2 = queue Fake.closed_once
        ∧ parents s2 = parents Fake.closed_once ∧ relays s2 = relays Fake.closed_once.
Proof.
  apply (Recv_after_Close (Msg := option bytes) Fake.fresh Fake.closed_once None);
    reflexivity.
Defined.

Lemma setupRelay_failure_witness :
  st_sess (setupRelay Fake.B (Fake.at_parent Fake.Flat Fake.B_dead)).1
  = Fake.with_parent Fake.Flat
  ∧ wire (st_world (setupRelay Fake.B (Fake.at_parent Fake.Flat Fake.B_dead)).1)
    = [EvAcquire Fake.B].
Proof.
  destruct (setupRelay_failure Fake.B (Fake.at_parent Fake.Flat Fake.B_dead)
              (setupRelay Fake.B (Fake.at_parent Fake.Flat Fake.B_dead)).1
              "failed to dial: unreachable")
    as (Hs & _ & _ & evs & Hw & Hevs); [reflexivity |].
  split; [exact Hs |]. rewrite Hw. simpl in Hevs. rewrite Hevs. reflexivity.
Defined.

Lemma setupRelay_success_witness :
  wg (st_sess (setupRelay Fake.C (Fake.at_parent Fake.Flat Fake.B_dead)).1) = 1
  ∧ setupRelay Fake.C (setupRelay Fake.C (Fake.at_parent Fake.Flat Fake.B_dead)).1
    = setupRelay Fake.C (Fake.at_parent Fake.Flat Fake.B_dead).
Proof.
  destruct (setupRelay_success Fake.C (Fake.at_parent Fake.Flat Fake.B_dead)
              (setupRelay Fake.C (Fake.at_parent Fake.Flat Fake.B_dead)).1
              (unicastRelay Fake.C Fake.client_stream 1))
    as (_ & _ & Hwg & Hagain); [reflexivity | reflexivity |].
  split; [exact Hwg | exact Hagain].
Defined.

Lemma relay_lifecycle_witness :
  ∃ st2 evs,
    relay_drain (Transport0 := Fake.raw_transport) Fake.C
      (unicastRelay Fake.C Fake.client_stream 1) [StreamErr "reset"]
      (setupRelay (Transport0 := Fake.raw_transport) Fake.C
         (Fake.at_parent (Fake.Via [Fake.C; Fake.B]) Fake.quiet)).1 = Ret st2
    ∧ relays (st_sess st2) = ∅
    ∧ wg (st_sess st2) = 0
    ∧ st_table st2 = Fake.Via [Fake.B]
    ∧ evs = [EvCloseSend Fake.client_stream; EvRelease Fake.C].
Proof.
  destruct (relay_lifecycle (Transport0 := Fake.raw_transport) Fake.C
              (Fake.at_parent (Fake.Via [Fake.C; Fake.B]) Fake.quiet)
              (setupRelay (Transport0 := Fake.raw_transport) Fake.C
                 (Fake.at_parent (Fake.Via [Fake.C; Fake.B]) Fake.quiet)).1
              (unicastRelay Fake.C Fake.client_stream 1) (StreamErr "reset") [])
    as (st2 & evs & Hd & Hr & Hwg & Ht & _ & _ & Hevs); [reflexivity | reflexivity |].
  exists st2, evs. split_and!; [exact Hd | exact Hr | exact Hwg | exact Ht | exact Hevs].
Defined.

Lemma fresh_relays_unicast (t : Fake.Table) : relays_unicast (Fake.with_parent t).
Proof.
  intros a rl.
  change (relays (Fake.with_parent t)) with (∅ : gmap Address Relay).
  by rewrite lookup_empty.
Qed.

(** With a flat table and everybody reachable, [sendPacket] registers a
    relay to [B] and one to [C]. *)
Lemma sendPacket_flat_registers :
  ∃ st', sendPacket 1 Fake.parent_relay Fake.to_B_and_C (Fake.at_parent Fake.Flat Fake.quiet)
         = Ret (st', Fake.to_B_and_C, true)
         ∧ relays (st_sess st') !! Fake.B = Some (unicastRelay Fake.B Fake.client_stream 1)
         ∧ relays (st_sess st') !! Fake.C = Some (unicastRelay Fake.C Fake.client_stream 1)
         ∧ wg (st_sess st') = 2.
Proof. eexists. split_and!; reflexivity. Qed.

(** The same through [Send], for the slice [[wrap(B), C]]. *)
Lemma Send_flat_registers :
  ∃ snt, (Send 1 (Some []) 0 Fake.one_slice (Fake.with_parent Fake.Flat) Fake.quiet).2
         = Ret snt
         ∧ relays (snt_sess snt) !! Fake.B = Some (unicastRelay Fake.B Fake.client_stream 1)
         ∧ relays (snt_sess snt) !! Fake.C = Some (unicastRelay Fake.C Fake.client_stream 1)
         ∧ wg (snt_sess snt) = 2.
Proof. eexists. split_and!; reflexivity. Qed.

Lemma sendPacket_relays_unicast_witness :
  ∃ st', sendPacket 1 Fake.parent_relay Fake.to_B_and_C (Fake.at_parent Fake.Flat Fake.quiet)
         = Ret (st', Fake.to_B_and_C, true)
         ∧ relays (st_sess st') !! Fake.B = Some (unicastRelay Fake.B Fake.client_stream 1)
         ∧ relays (st_sess st') !! Fake.C = Some (unicastRelay Fake.C Fake.client_stream 1)
         ∧ relays_unicast (st_sess st').
Proof.
  destruct sendPacket_flat_registers as (st' & Hr & HB & HC & _).
  exists st'. split_and!; [exact Hr | exact HB | exact HC |].
  exact (sendPacket_relays_unicast 1 Fake.parent_relay Fake.to_B_and_C
           (Fake.at_parent Fake.Flat Fake.quiet) st' Fake.to_B_and_C true
           (fresh_relays_unicast Fake.Flat) Hr).
Defined.

Lemma sendPacket_frame_witness :
  ∃ st', sendPacket 1 Fake.parent_relay Fake.to_B_and_C (Fake.at_parent Fake.Flat Fake.quiet)
         = Ret (st', Fake.to_B_and_C, true)
         ∧ wg (st_sess st') = 2
         ∧ me (st_sess st') = Fake.A
         ∧ errs (st_sess st') = make_chan 1
         ∧ parents (st_sess st') = [(Addr "O", mkParent Fake.parent_relay Fake.Flat)].
Proof.
  destruct sendPacket_flat_registers as (st' & Hr & _ & _ & Hwg).
  exists st'. split; [exact Hr |]. split; [exact Hwg |].
  exact (sendPacket_frame 1 Fake.parent_relay Fake.to_B_and_C
           (Fake.at_parent Fake.Flat Fake.quiet) st' Fake.to_B_and_C true Hr).
Defined.

Lemma Send_frame_witness :
  ∃ snt, (Send 1 (Some []) 0 Fake.one_slice (Fake.with_parent Fake.Flat) Fake.quiet).2
         = Ret snt
         ∧ wg (snt_sess snt) = 2
         ∧ me (snt_sess snt) = Fake.A
         ∧ errs (snt_sess snt) = make_chan 1
         ∧ (λ e, (e.1, relay e.2)) <$> parents (snt_sess snt)
           = [(Addr "O", Fake.parent_relay)]
         ∧ relays_unicast (snt_sess snt).
Proof.
  destruct Send_flat_registers as (snt & Hr & _ & _ & Hwg).
  destruct (Send_frame 1 (Some []) 0 Fake.one_slice (Fake.with_parent Fake.Flat)
              Fake.quiet snt Hr) as (Hme & He & Hp & Hu).
  exists snt. split_and!; [exact Hr | exact Hwg | exact Hme | exact He | exact Hp |].
  exact (Hu (fresh_relays_unicast Fake.Flat)).
Defined.

Lemma sendPacket_voids_only_witness :
  ∃ st', sendPacket 0 Fake.parent_relay Fake.to_B_and_C (Fake.at_parent (Fake.Via []) Fake.quiet)
         = Ret (st', Fake.to_B_and_C, true)
         ∧ st_errs st' = ["no route to B: unreachable"; "no route to C: unreachable"]
         ∧ wire (st_world st') = [].
Proof.
  edestruct (sendPacket_voids_only 0 Fake.parent_relay Fake.to_B_and_C
               (Fake.at_parent (Fake.Via []) Fake.quiet))
    as (st' & Hs & He & Hw & _); [reflexivity |].
  exists st'. split; [exact Hs |]. split; [exact He |]. rewrite Hw. reflexivity.
Defined.

Lemma Send_parents_first_accepting_witness :
  ∃ before',
    Send_parents 1 [] [Fake.B]
      ([] ++ (Addr "O", mkParent Fake.parent_relay Fake.Up)
          :: [(Addr "P", mkParent Fake.parent_relay (Fake.Via []))])
      (Fake.with_parent Fake.Up) Fake.quiet []
    = Ret (mkLoop (before' ++ (Addr "O", mkParent Fake.parent_relay Fake.Up)
                     :: [(Addr "P", mkParent Fake.parent_relay (Fake.Via []))])
             (Fake.with_parent Fake.Up) Fake.sent_up [], true)
    ∧ before'.*1 = [].
Proof.
  apply (Send_parents_first_accepting 1 [] [Fake.B] []
           [(Addr "P", mkParent Fake.parent_relay (Fake.Via []))] (Addr "O")
           (mkParent Fake.parent_relay Fake.Up) (Fake.with_parent Fake.Up)
           Fake.quiet [] Fake.handed_up (Fake.mkPacket Fake.A [Fake.B] [])).
  - intros b q Hin. by apply elem_of_nil in Hin.
  - reflexivity.
Defined.

End SessionTheory.

(** ** The block synchronizer *)

Module BlockSyncTheory.
Import BlockSync.

Section Monotone.
Context {B Link S : Type} `{!Chain B Link, !Sender S Link}.
Implicit Types (h : sync B) (out : S) (ins : list (result (Address * Message Link))).

Lemma store_latest_max idx h : latest (store_latest idx h) = N.max (latest h) idx.
Proof. unfold store_latest. case_decide; simpl; lia. Qed.

Lemma store_latest_blocks idx h : blocks (store_latest idx h) = blocks h.
Proof. unfold store_latest. by case_decide. Qed.

(** What [Stream] does to [latest]: nothing, or the update under the lock
    with the index of the announcement. *)
Lemma Stream_latest h out ins :
  latest (Stream h out ins).1.1 = latest h
  ∨ ∃ idx, (Len (blocks h) < idx)%N
           ∧ latest (Stream h out ins).1.1 = latest (store_latest idx h).
Proof.
  unfold Stream. destruct (waitAnnounce ins) as [r ins'].
  destruct r as [[[idx orch] | err] | | |]; simpl; try (by left).
  case_decide as Hle.
  - destruct (ack out orch); simpl. by left.
  - right. exists idx. split; [lia |].
    destruct (mino_Send out _ _) as [out' ch].
    destruct (first_err ch); simpl; [done |].
    destruct (catch_up idx ins' _) as [[b r] ins''].
    destruct r as [[e |] | | |]; simpl; try done.
    destruct (ack out' orch); done.
Qed.

Lemma Stream_latest_le h out ins : (latest h ≤ latest (Stream h out ins).1.1)%N.
Proof.
  destruct (Stream_latest h out ins) as [-> | (idx & _ & ->)]; [lia |].
  rewrite store_latest_max. lia.
Qed.

Lemma run_calls_lower h (calls : list (call (Link := Link) (S := S))) v :
  v ∈ run_calls h calls → (latest h ≤ v)%N.
Proof.
  revert h. induction calls as [| c calls IH]; intros h; simpl.
  { by intros ?%elem_of_nil. }
  destruct c as [| out ins | serr players sender ins].
  - intros [-> | Hin]%elem_of_cons; [done | by apply IH].
  - intros Hin%IH. pose proof (Stream_latest_le h out ins). lia.
  - apply IH.
Qed.

(** C8: the counter behind [GetLatest] never goes down.  The update of the
    handler stores the announced index only when it is greater, which
    makes it a maximum; a call of [Stream] leaves the counter alone or
    makes this update; and in every run of calls on a synchronizer the
    values returned by [GetLatest] are in non-decreasing order. *)
Theorem GetLatest_monotone h :
  (∀ idx, GetLatest (store_latest idx h) = N.max (GetLatest h) idx)
  ∧ (∀ out ins, (GetLatest h ≤ GetLatest (Stream h out ins).1.1)%N)
  ∧ ∀ (calls : list (call (Link := Link) (S := S))) i j vi vj,
      i ≤ j →
      run_calls h calls !! i = Some vi →
      run_calls h calls !! j = Some vj →
      (vi ≤ vj)%N.
Proof.
  split; [intros idx; apply store_latest_max |].
  split; [intros out ins; apply Stream_latest_le |].
  intros calls. revert h.
  induction calls as [| c calls IH]; intros h i j vi vj Hij; simpl.
  { by rewrite lookup_nil. }
  destruct c as [| out ins | serr players sender ins]; [| by apply IH | by apply IH].
  destruct i as [| i], j as [| j]; simpl; try lia.
  - intros [= <-] [= <-]. done.
  - intros [= <-] Hj. eapply run_calls_lower, list_elem_of_lookup_2, Hj.
  - apply IH. lia.
Qed.
End Monotone.

Section Announcement.
Context {B Link S : Type} `{!Chain B Link, !Sender S Link}.
Implicit Types (s : sync B) (sender : S) (ins : list (result (Address * Message Link))).

Lemma announcement_error_some (errs : list (option error)) e :
  Some e ∈ errs → ∃ e', announcement_error errs = Some ("announcement failed: " +:+ e').
Proof.
  induction errs as [| [x |] errs IH]; simpl.
  - by intros ?%elem_of_nil.
  - intros _. by exists x.
  - intros [[=] | Hin]%elem_of_cons. by apply IH.
Qed.

(** C10: one error among the answers to the announcement ends [routine]
    at once.  [Sync] then closes its channel without having sent any event
    on it and without having received any message, whatever the players
    would have answered. *)
Theorem Sync_aborts_on_announcement_error s players sender ins e :
  Some e ∈ (mino_Send sender (SyncMessage (Len (blocks s))) players).2 →
  (∃ e', (routine s None players sender ins (make_chan 1)).2
         = Ret (Some ("announcement failed: " +:+ e')))
  ∧ sy_closed (Sync s None players sender ins) = true
  ∧ pr_published (sy_progress (Sync s None players sender ins)) = []
  ∧ ch_buf (pr_ch (sy_progress (Sync s None players sender ins))) = []
  ∧ pr_ins (sy_progress (Sync s None players sender ins)) = ins.
Proof.
  intros Hin. unfold Sync, routine.
  destruct (mino_Send sender (SyncMessage (Len (blocks s))) players) as [sender' errs].
  simpl in Hin. destruct (announcement_error_some errs e Hin) as (e' & ->).
  simpl. split; [by exists e' | done].
Qed.
End Announcement.

(** *** More of the synchronizer *)

Section Handler.
Context {B Link S : Type} `{!Chain B Link, !Sender S Link}.
Implicit Types (h : sync B) (out : S) (ins : list (result (Address * Message Link))).

Lemma waitAnnounce_skips junk ins :
  Forall not_announce junk → waitAnnounce (junk ++ ins) = waitAnnounce ins.
Proof.
  induction 1 as [| x junk Hx _ IH]; [done |]. simpl.
  destruct x as [[from [idx | f | link | |]] | err]; simpl in Hx; done.
Qed.

(** X15: Whatever reaches the handler before the announcement is ignored: the
    run of Stream is the run on the messages from the announcement on. *)
Theorem Stream_skips_to_announce h out junk ins :
  Forall not_announce junk →
  Stream h out (junk ++ ins) = Stream h out ins.
Proof. intros Hjunk. unfold Stream. by rewrite waitAnnounce_skips. Qed.

Lemma catch_up_done idx ins (b b' : B) rest :
  catch_up idx ins b = (b', Ret None, rest) → (idx ≤ Len b')%N.
Proof.
  revert b. induction ins as [| x ins IH]; intros b; simpl.
  - case_decide; [done |]. intros [= <- _]. lia.
  - case_decide as Hlt; [| intros [= <- _]; lia].
    destruct x as [[from [i | f | link | |]] | err]; try (by apply IH); [| done].
    destruct (CatchUp b link) as [b1 [e |]]; [done | by apply IH].
Qed.

(** X16: When Stream returns without error, the store holds at least the
    announced number of blocks.  A handler that had them already has
    changed nothing, not even its latest index; one that had to catch up
    has its latest index at the announced index or above. *)
Theorem Stream_success h out ins idx orch rest h' out' :
  waitAnnounce ins = (Ret (inl (idx, orch)), rest) →
  Stream h out ins = (h', out', Ret None) →
  (idx ≤ Len (blocks h'))%N
  ∧ ((idx ≤ Len (blocks h))%N → h' = h)
  ∧ ((Len (blocks h) < idx)%N → (idx ≤ latest h')%N).
Proof.
  intros Hwait. unfold Stream. rewrite Hwait.
  case_decide as Hle.
  - destruct (ack out orch) as [o e]. intros [= <- <- ->].
    split_and!; [done | done | lia].
  - pose proof (store_latest_max idx h) as Hmax.
    pose proof (store_latest_blocks idx h) as Hblocks.
    destruct (mino_Send out _ _) as [o ch].
    destruct (first_err ch); [done |].
    destruct (catch_up idx rest (blocks (store_latest idx h))) as [[b r] rest'] eqn:Hcu.
    destruct r as [[e |] | | |]; try done.
    destruct (ack o orch) as [o' e']. intros [= <- <- ->].
    apply catch_up_done in Hcu. cbn [blocks latest set_blocks].
    split_and!; [done | lia | lia].
Qed.
End Handler.

Section Orchestrator.
Context {B Link S : Type} `{!Chain B Link, !Sender S Link}.
Implicit Types (p : progress (Link := Link) (S := S)).
Implicit Types (soft hard : gset Address) (errs : list error).

Lemma events_grow_snoc (evs : list Event) e :
  events_grow evs →
  (∀ e0, last evs = Some e0 →
     Soft e0 ≤ Soft e ∧ Hard e0 ≤ Hard e ∧ length (Errors e0) ≤ length (Errors e)) →
  events_grow (evs ++ [e]).
Proof.
  intros Hg Hlast i e1 e2 H1 H2.
  destruct (decide (Datatypes.S i < length evs)) as [Hlt | Hge].
  - rewrite lookup_app_l in H1 by lia. rewrite lookup_app_l in H2 by lia. eauto.
  - assert (Datatypes.S i = length evs) as Hi.
    { apply lookup_lt_Some in H2. rewrite length_app in H2. simpl in H2. lia. }
    rewrite lookup_app_l in H1 by lia.
    rewrite Hi, lookup_app_r, Nat.sub_diag in H2 by lia. injection H2 as <-.
    apply Hlast. rewrite last_lookup. rewrite <- Hi. simpl. done.
Qed.

Lemma publish_inv soft hard errs soft' hard' errs' p :
  routine_inv soft hard errs p →
  soft ⊆ soft' → hard ⊆ hard' → hard' ⊆ soft' →
  length errs ≤ length errs' → length errs' ≤ size hard' →
  ∃ p', publish p soft' hard' errs' = Ret p'
        ∧ routine_inv soft' hard' errs' p'
        ∧ pr_sender p' = pr_sender p ∧ pr_ins p' = pr_ins p.
Proof.
  intros (Hsub & Hlen & Hopen & Hcap & Hok & Hgrow & Hlast) Hs Hh Hhs Hle Hle'.
  unfold publish, sendToChannel, chan_send. cbn [ch_closed ch_cap ch_buf].
  rewrite Hopen, Hcap. cbn.
  eexists. split; [done |]. split; [| done].
  unfold routine_inv. cbn [pr_ch pr_published ch_closed ch_cap ch_buf].
  split_and!; try done.
  - apply Forall_app. split; [done |]. apply Forall_singleton.
    split; simpl; [by apply subseteq_size | done].
  - apply events_grow_snoc; [done |]. intros e0 He0. rewrite He0 in Hlast.
    destruct Hlast as [-> _]. simpl.
    split_and!; [by apply subseteq_size | by apply subseteq_size | done].
  - by rewrite last_snoc.
Qed.

Lemma routine_inv_ins soft hard errs p
    (ins' : list (result (Address * Message Link))) (sender' : S) :
  routine_inv soft hard errs p →
  routine_inv soft hard errs (mkProgress sender' (pr_ch p) (pr_published p) ins').
Proof. done. Qed.

Lemma routine_loop_post (b : B) players ins soft hard errs p :
  routine_inv soft hard errs p →
  routine_post players (routine_loop b players ins soft hard errs p).1
               (routine_loop b players ins soft hard errs p).2.
Proof.
  revert soft hard errs p.
  induction ins as [| x ins IH]; intros soft hard errs p Hinv.
  - simpl. destruct Hinv as (Hsub & Hlen & Hopen & Hcap & Hok & Hgrow & Hlast).
    case_decide as Hsize; cbn [fst snd]; unfold routine_post.
    + split_and!; try done; [by left | by destruct (last (pr_published p)) as [e |];
        [destruct Hlast as [_ ->] | destruct Hlast as (_ & _ & ->)]].
    + split_and!; try done; [right; eauto | |].
      * destruct (last (pr_published p)) as [e |];
          [by destruct Hlast as [_ ->] | by destruct Hlast as (_ & _ & ->)].
      * intros _. destruct (last (pr_published p)) as [e |].
        -- destruct Hlast as [-> _]. simpl. lia.
        -- destruct Hlast as (-> & _ & _). rewrite size_empty in Hsize. lia.
  - simpl. case_decide as Hsize.
    2: { cbn [fst snd]. destruct Hinv as (Hsub & Hlen & Hopen & Hcap & Hok & Hgrow & Hlast).
         unfold routine_post. split_and!; try done; [right; eauto | |].
         - destruct (last (pr_published p)) as [e |];
             [by destruct Hlast as [_ ->] | by destruct Hlast as (_ & _ & ->)].
         - intros _. destruct (last (pr_published p)) as [e |].
           + destruct Hlast as [-> _]. simpl. lia.
           + destruct Hlast as (-> & _ & _). rewrite size_empty in Hsize. lia. }
    destruct x as [[from msg] | err].
    2: { cbn [fst snd]. destruct Hinv as (Hsub & Hlen & Hopen & Hcap & Hok & Hgrow & Hlast).
         unfold routine_post. cbn [pr_ch pr_published].
         split_and!; try done; [right; eauto |].
         destruct (last (pr_published p)) as [e |];
           [by destruct Hlast as [_ ->] | by destruct Hlast as (_ & _ & ->)]. }
    set (p0 := mkProgress (pr_sender p) (pr_ch p) (pr_published p) ins).
    assert (Hinv0 : routine_inv soft hard errs p0) by done.
    pose proof Hinv as (Hsub & Hlen & _).
    destruct msg as [idx | f | link | |]; try (by apply IH).
    + (* SyncRequest *)
      case_decide as Hdup; [by apply IH |].
      destruct (publish_inv soft hard errs ({[from]} ∪ soft) hard errs p0 Hinv0)
        as (p1 & Hpub & Hinv1 & Hsender & Hins);
        [apply union_subseteq_r | done | by etrans; [| apply union_subseteq_r]
        | lia | lia |].
      rewrite Hpub.
      destruct (syncNode b f (pr_sender p1) from) as [sender' [e |]].
      * pose proof (routine_inv_ins _ _ _ _ ins sender' Hinv1) as Hinv1'.
        destruct (publish_inv _ _ _ ({[from]} ∪ soft) ({[from]} ∪ hard) (errs ++ [e])
                    _ Hinv1') as (p2 & Hpub2 & Hinv2 & _ & _);
          [done | apply union_subseteq_r | by apply union_mono_l | | |].
        { rewrite length_app. lia. }
        { rewrite length_app. simpl.
          rewrite size_union, size_singleton; [lia |].
          apply disjoint_singleton_l. intros Hin. apply Hdup. by apply Hsub. }
        rewrite Hpub2. by apply IH.
      * apply IH. by apply routine_inv_ins.
    + (* SyncAck *)
      destruct (publish_inv soft hard errs ({[from]} ∪ soft) ({[from]} ∪ hard) errs
                  p0 Hinv0) as (p1 & Hpub & Hinv1 & _ & _);
        [apply union_subseteq_r | apply union_subseteq_r | by apply union_mono_l
        | lia | |].
      { etrans; [exact Hlen |]. apply subseteq_size, union_subseteq_r. }
      rewrite Hpub. by apply IH.
Qed.

Lemma routine_post_holds (s : sync B) stream_err (players : list Address)
    (sender : S) ins :
  routine_post (length players)
    (routine s stream_err players sender ins (make_chan 1)).1
    (routine s stream_err players sender ins (make_chan 1)).2.
Proof.
  assert (Hstart : ∀ (sender' : S) e,
    routine_post (length players) (mkProgress sender' (make_chan 1) [] ins) (Ret (Some e))).
  { intros sender' e. unfold routine_post. cbn.
    split_and!; try done; first [by right; eauto | by intros ? ? ? ?]. }
  unfold routine. destruct stream_err as [err |]; [apply Hstart |].
  destruct (mino_Send sender _ players) as [sender' errs].
  destruct (announcement_error errs) as [e |]; [apply Hstart |].
  apply routine_loop_post. unfold routine_inv. cbn.
  split_and!; try done; by intros ? ? ? ?.
Qed.

(** X17: The events that Sync sends are sound and never go back: each has at
    most as many hard-synchronized players as soft ones and at most as
    many errors as hard ones, and from one event to the next neither count
    nor the number of errors decreases. *)
Theorem Sync_events_grow (s : sync B) stream_err (players : list Address)
    (sender : S) ins :
  Forall event_ok (pr_published (sy_progress (Sync s stream_err players sender ins)))
  ∧ events_grow (pr_published (sy_progress (Sync s stream_err players sender ins))).
Proof.
  pose proof (routine_post_holds s stream_err players sender ins)
    as (_ & Hok & Hgrow & _).
  unfold Sync. destruct (routine s stream_err players sender ins (make_chan 1)) as [p r].
  cbn [fst snd] in *.
  destruct r as [e | | |]; try done.
  destruct (chan_close (pr_ch p)); done.
Qed.

(** X18: With nobody receiving, the channel of Sync holds the newest event and
    nothing else, the older ones having been drained.  The goroutine never
    panics: it returns, and then the channel is closed, or it waits for a
    message that does not come. *)
Theorem Sync_keeps_newest (s : sync B) stream_err (players : list Address)
    (sender : S) ins :
  let y := Sync s stream_err players sender ins in
  let r := (routine s stream_err players sender ins (make_chan 1)).2 in
  ch_buf (pr_ch (sy_progress y))
  = match last (pr_published (sy_progress y)) with Some e => [e] | None => [] end
  ∧ ch_closed (pr_ch (sy_progress y)) = sy_closed y
  ∧ (r = Blocked ∧ sy_closed y = false ∨ (∃ e, r = Ret e) ∧ sy_closed y = true).
Proof.
  pose proof (routine_post_holds s stream_err players sender ins)
    as (Hr & _ & _ & Hbuf & Hopen & _).
  cbv zeta. unfold Sync.
  destruct (routine s stream_err players sender ins (make_chan 1)) as [p r].
  cbn [fst snd] in *.
  destruct Hr as [-> | [e ->]].
  - cbn. split_and!; try done. by left.
  - unfold chan_close. rewrite Hopen. cbn. split_and!; try done. right. eauto.
Qed.

(** X19: When the routine of Sync ends without error, every player is hard
    synchronized in the last event sent; without players there is none. *)
Theorem routine_complete (s : sync B) stream_err (players : list Address)
    (sender : S) ins :
  (routine s stream_err players sender ins (make_chan 1)).2 = Ret None →
  match last (pr_published (routine s stream_err players sender ins (make_chan 1)).1) with
  | Some e => length players ≤ Hard e
  | None => players = []
  end.
Proof.
  pose proof (routine_post_holds s stream_err players sender ins)
    as (_ & _ & _ & _ & _ & Hdone).
  intros Hr. specialize (Hdone Hr).
  destruct (last _) as [e |]; [done |]. by apply nil_length_inv.
Qed.
End Orchestrator.

Section SyncNode.
Context {B Link S : Type} `{!Chain B Link, !Sender S Link}.

(** The bound on the turns of the loop of [syncNode] is never what stops
    it: more turns change nothing. *)
Lemma syncNode_loop_enough (n k : nat) (i : N) (b : B) (sender : S) (to : Address) :
  (Len b < uint64_mod)%N →
  N.to_nat (Len b - i) ≤ n →
  syncNode_loop (n + k) i b sender to = syncNode_loop n i b sender to.
Proof.
  intros Hlen. revert i sender.
  induction n as [| n IH]; intros i sender Hn.
  - destruct k as [| k]; simpl; [done |].
    case_decide; [lia | done].
  - simpl. case_decide as Hlt; [| done].
    destruct (GetByIndex b i) as [link | err]; [| done].
    destruct (mino_Send sender (SyncReply link) [to]) as [sender' ch].
    destruct (first_err ch); [done |].
    apply IH. unfold uint64_mod in *.
    rewrite N.mod_small by lia. lia.
Qed.
End SyncNode.

Lemma GetLatest_monotone_witness :
  run_calls (NewSynchronizer 3%N)
    [CallGetLatest; CallStream [] [inl (Fake.A, SyncMessage 5%N)]; CallGetLatest]
  = [3%N; 5%N]
  ∧ (3 ≤ 5)%N.
Proof.
  split; [reflexivity |].
  apply (proj2 (proj2 (GetLatest_monotone (S := list (list (option error)))
                         (NewSynchronizer 3%N)))
           [CallGetLatest; CallStream [] [inl (Fake.A, SyncMessage 5%N)]; CallGetLatest]
           0 1); [lia | reflexivity | reflexivity].
Defined.

Lemma Sync_aborts_on_announcement_error_witness :
  (∃ e', (routine (NewSynchronizer 5%N) None [Fake.A; Fake.B]
            [[None; Some "no route to B"]] [inl (Fake.A, SyncAck)] (make_chan 1)).2
         = Ret (Some ("announcement failed: " +:+ e')))
  ∧ sy_closed (Sync (NewSynchronizer 5%N) None [Fake.A; Fake.B]
                 [[None; Some "no route to B"]] [inl (Fake.A, SyncAck)]) = true
  ∧ pr_published (sy_progress (Sync (NewSynchronizer 5%N) None [Fake.A; Fake.B]
                 [[None; Some "no route to B"]] [inl (Fake.A, SyncAck)])) = []
  ∧ ch_buf (pr_ch (sy_progress (Sync (NewSynchronizer 5%N) None [Fake.A; Fake.B]
                 [[None; Some "no route to B"]] [inl (Fake.A, SyncAck)]))) = []
  ∧ pr_ins (sy_progress (Sync (NewSynchronizer 5%N) None [Fake.A; Fake.B]
                 [[None; Some "no route to B"]] [inl (Fake.A, SyncAck)]))
    = [inl (Fake.A, SyncAck)].
Proof.
  apply (Sync_aborts_on_announcement_error (NewSynchronizer 5%N) [Fake.A; Fake.B]
           [[None; Some "no route to B"]] [inl (Fake.A, SyncAck)] "no route to B").
  simpl. repeat constructor.
Defined.

(** The run of scenario S4: the orchestrator has five blocks, one player
    has five and acknowledges, the other has three, asks, and acknowledges
    after two replies. *)
Example Sync_two_players :
  pr_published (sy_progress
    (Sync (NewSynchronizer 5%N) None [Fake.A; Fake.B] [[]; []; []]
       [inl (Fake.A, SyncAck); inl (Fake.B, SyncRequest 3%N); inl (Fake.B, SyncAck)]))
  = [mkEvent 1 1 []; mkEvent 2 1 []; mkEvent 2 2 []].
Proof. vm_compute. reflexivity. Qed.

Lemma Stream_skips_to_announce_witness :
  Stream (S := Fake.script) (NewSynchronizer 3%N) []
    ([inl (Fake.A, SyncAck); inl (Fake.A, SyncReply 7%N)]
     ++ [inl (Fake.A, SyncMessage 3%N)])
  = Stream (S := Fake.script) (NewSynchronizer 3%N) [] [inl (Fake.A, SyncMessage 3%N)].
Proof.
  apply (Stream_skips_to_announce (S := Fake.script) (NewSynchronizer 3%N) []
           [inl (Fake.A, SyncAck); inl (Fake.A, SyncReply 7%N)]
           [inl (Fake.A, SyncMessage 3%N)]).
  repeat constructor.
Defined.

Lemma Stream_success_witness :
  (5 ≤ Len (blocks (Stream (S := Fake.script) (NewSynchronizer 3%N) []
                      [inl (Fake.A, SyncMessage 5%N); inl (Fake.A, SyncReply 3%N);
                       inl (Fake.A, SyncReply 4%N)]).1.1))%N.
Proof.
  edestruct (Stream_success (S := Fake.script) (NewSynchronizer 3%N) []
               [inl (Fake.A, SyncMessage 5%N); inl (Fake.A, SyncReply 3%N);
                inl (Fake.A, SyncReply 4%N)] 5%N Fake.A) as (Hlen & _ & _);
    [reflexivity | reflexivity | exact Hlen].
Defined.

Lemma routine_complete_witness :
  match last (pr_published
                (routine (S := Fake.script) (NewSynchronizer 5%N) None [Fake.A; Fake.B]
                   [[]; []; []]
                   [inl (Fake.A, SyncAck); inl (Fake.B, SyncRequest 3%N);
                    inl (Fake.B, SyncAck)] (make_chan 1)).1) with
  | Some e => 2 ≤ Hard e
  | None => [Fake.A; Fake.B] = []
  end.
Proof.
  apply (routine_complete (S := Fake.script) (NewSynchronizer 5%N) None [Fake.A; Fake.B]
           [[]; []; []]
           [inl (Fake.A, SyncAck); inl (Fake.B, SyncRequest 3%N); inl (Fake.B, SyncAck)]).
  vm_compute. reflexivity.
Defined.

End BlockSyncTheory.
